(** * Channel lifecycle and argument marshalling of grpc-native-core

    A shallow embedding of [packages/grpc-native-core/ext/channel.cc]:
    the channel-argument encoder ([ParseChannelArgs],
    [DeallocateChannelArgs]) over an explicit native heap, and the
    methods of the [Channel] wrapper over a world made of that heap, the
    wrapped [Channel] objects and the log of calls into the gRPC core.

    Conventions.
    - A JavaScript string stands for its UTF-8 bytes, the view that
      [Nan::Utf8String] gives of it; a C string is that byte sequence
      followed by one NUL byte.
    - A computation that returns [None] has left defined behaviour
      (invalid [free], access outside a block, use of a dangling
      pointer).  Every theorem about a run states that the run returns
      [Some]. *)

From Stdlib Require Import ZArith Ascii String.
From stdpp Require Import gmap strings list fin_maps.

Local Open Scope Z_scope.
Local Open Scope string_scope.
Local Open Scope list_scope.

(** ** JavaScript values *)

(** A JavaScript number, as far as the type tests of the file tell
    numbers apart: a double with an integral value, the negative zero,
    or any other double (fractions, infinities, NaN). *)
Inductive Number :=
| Integral (z : Z)
| NegativeZero
| NonIntegral.

(** Opaque handles of the gRPC core; a nullable pointer is an [option]. *)
Definition grpc_channel := positive.
Definition grpc_channel_credentials := positive.
Definition grpc_call := positive.

Abbreviation NULL := None (only parsing).

#[warnings="-register-all"]
Inductive Value :=
| VUndefined
| VNull
| VBoolean (b : bool)
| VNumber (n : Number)
| VString (s : string)
| VDate (t : Number)
| VFunction (f : positive)
| VObject (props : list (string * Value))
    (* a plain object: its own enumerable properties, in enumeration order *)
| VChannelCredentials (creds : option grpc_channel_credentials)
    (* a ChannelCredentials instance and the pointer it wraps *)
| VCall (call : option grpc_call)
    (* a Call instance and the pointer it wraps *)
| VChannel (obj : positive).
    (* an instance of the Channel template; [obj] names the wrapped object *)

Definition IsUndefined (v : Value) : bool :=
  match v with VUndefined => true | _ => false end.

Definition IsNull (v : Value) : bool :=
  match v with VNull => true | _ => false end.

Definition IsString (v : Value) : bool :=
  match v with VString _ => true | _ => false end.

Definition IsNumber (v : Value) : bool :=
  match v with VNumber _ => true | _ => false end.

Definition IsDate (v : Value) : bool :=
  match v with VDate _ => true | _ => false end.

Definition IsFunction (v : Value) : bool :=
  match v with VFunction _ => true | _ => false end.

Definition IsObject (v : Value) : bool :=
  match v with
  | VDate _ | VFunction _ | VObject _ | VChannelCredentials _ | VCall _
  | VChannel _ => true
  | _ => false
  end.

(** [v->IsInt32()]: a number whose value is an integer of the signed
    32-bit range, the negative zero excluded. *)
Definition IsInt32 (v : Value) : bool :=
  match v with
  | VNumber (Integral z) => bool_decide (- 2 ^ 31 <= z < 2 ^ 31)
  | _ => false
  end.

(** [v->IsUint32()]. *)
Definition IsUint32 (v : Value) : bool :=
  match v with
  | VNumber (Integral z) => bool_decide (0 <= z < 2 ^ 32)
  | _ => false
  end.

(** [Nan::To<int32_t>(v).FromJust()] and [Nan::To<uint32_t>(v).FromJust()]
    on a value that passed [IsInt32], respectively [IsUint32]. *)
Definition To_integer (v : Value) : Z :=
  match v with VNumber (Integral z) => z | _ => 0 end.

(** [Nan::To<double>(v).FromJust()] on a number or a date. *)
Definition To_double (v : Value) : Number :=
  match v with VNumber n | VDate n => n | _ => NonIntegral end.

(** [v->StrictEquals(Nan::True())]: only the boolean primitive [true] is
    strictly equal to [true]. *)
Definition StrictEquals_True (v : Value) : bool :=
  match v with VBoolean true => true | _ => false end.

(** [Nan::Utf8String]: the UTF-8 bytes of a string.  The file converts
    strings only (property names, and values that passed [IsString]);
    the conversion of other values is not modelled and reads as the
    failed conversion. *)
Definition Utf8String (v : Value) : option string :=
  match v with VString s => Some s | _ => None end.

(** The own enumerable properties of an object.  Objects other than
    plain ones are taken without own enumerable properties. *)
Definition own_properties (v : Value) : list (string * Value) :=
  match v with VObject props => props | _ => [] end.

Definition GetOwnPropertyNames (obj : Value) : list Value :=
  (λ kv, VString kv.1) <$> own_properties obj.

Definition HasOwnProperty (obj : Value) (k : string) : bool :=
  bool_decide (k ∈ (own_properties obj).*1).

Fixpoint lookup_property (props : list (string * Value)) (k : string)
  : option Value :=
  match props with
  | [] => None
  | (k', v) :: props' =>
      if decide (k' = k) then Some v else lookup_property props' k
  end.

(** [Nan::Get(obj, key)] for a property name [key]. *)
Definition Get (obj : Value) (key : Value) : Value :=
  match key with
  | VString k => default VUndefined (lookup_property (own_properties obj) k)
  | _ => VUndefined
  end.

(** ** C strings *)

(** The char array of a string literal or of a [Utf8String]: the bytes
    and the terminating NUL; [sizeof] of a literal is its length. *)
Definition c_string (s : string) : list ascii :=
  list_ascii_of_string s ++ [zero].

Definition is_nul (c : ascii) : bool := bool_decide (c = zero).

(** [strcmp] on char arrays; reading stops at the first NUL (the end of
    the array reads as a NUL). *)
Fixpoint strcmp (a b : list ascii) : Z :=
  match a, b with
  | [], [] => 0
  | [], y :: _ => - Z.of_nat (nat_of_ascii y)
  | x :: _, [] => Z.of_nat (nat_of_ascii x)
  | x :: a', y :: b' =>
      if decide (x = y)
      then if is_nul x then 0 else strcmp a' b'
      else Z.of_nat (nat_of_ascii x) - Z.of_nat (nat_of_ascii y)
  end.

(** ** The native heap *)

Inductive grpc_arg_type := GRPC_ARG_STRING | GRPC_ARG_INTEGER | GRPC_ARG_POINTER.

(** The member of the [value] union that was written last. *)
Inductive grpc_arg_value :=
| value_string (p : option positive)
| value_integer (i : Z).

Record grpc_arg := Build_grpc_arg {
  type : grpc_arg_type;
  key : option positive;
  value : grpc_arg_value
}.

(** A [grpc_arg] of zero bytes, as [calloc] returns it:
    [GRPC_ARG_STRING] is the enumerator 0. *)
Definition zero_arg : grpc_arg :=
  {| type := GRPC_ARG_STRING; key := NULL; value := value_string NULL |}.

Record grpc_channel_args := Build_grpc_channel_args {
  num_args : nat;
  args : option positive
}.

Inductive block :=
| chars (cs : list ascii)
| arg_array (l : list grpc_arg)
| channel_args_struct (ca : grpc_channel_args)
| slice (bytes : list ascii)
| slice_box (s : option positive).

#[global] Instance grpc_arg_type_eq_dec : EqDecision grpc_arg_type.
Proof. solve_decision. Defined.

(** Computations on the heap: state passing, [None] for undefined
    behaviour. *)
Definition C (A : Type) : Type := gmap positive block → option (A * gmap positive block).

#[global] Instance C_ret : MRet C := λ A a h, Some (a, h).

#[global] Instance C_bind : MBind C :=
  λ A B f m h, match m h with Some (a, h') => f a h' | None => None end.

Definition ret {A} (a : A) : C A := mret a.

Definition undefined_behaviour {A} : C A := λ _, None.

(** [malloc], [calloc], [new]: a block at an address that is not in use. *)
Definition alloc (b : block) : C positive :=
  λ h, let p := fresh (dom h) in Some (p, <[p := b]> h).

(** [free], [delete]: a no-op on NULL, undefined on a pointer that is
    not the address of a live block. *)
Definition free (p : option positive) : C unit :=
  λ h, match p with
       | None => Some (tt, h)
       | Some a => match h !! a with
                   | Some _ => Some (tt, delete a h)
                   | None => None
                   end
       end.

Definition load (p : positive) : C block :=
  λ h, match h !! p with Some b => Some (b, h) | None => None end.

Definition store (p : positive) (b : block) : C unit :=
  λ h, match h !! p with Some _ => Some (tt, <[p := b]> h) | None => None end.

(** [calloc(n, sizeof(char))]. *)
Definition calloc_chars (n : nat) : C positive := alloc (chars (replicate n zero)).

(** [calloc(n, sizeof(grpc_arg))]. *)
Definition calloc_args (n : nat) : C positive := alloc (arg_array (replicate n zero_arg)).

(** [memcpy(dst + off, src, n)]. *)
Definition memcpy (dst : positive) (off : nat) (src : list ascii) (n : nat) : C unit :=
  b ← load dst;
  match b with
  | chars cs =>
      if decide (off + n ≤ length cs ∧ n ≤ length src)%nat
      then store dst (chars (take off cs ++ take n src ++ drop (off + n) cs))
      else undefined_behaviour
  | _ => undefined_behaviour
  end.

(** [dst[off] = c]. *)
Definition store_char (dst : positive) (off : nat) (c : ascii) : C unit :=
  memcpy dst off [c] 1.

Definition load_channel_args (channel_args : positive) : C grpc_channel_args :=
  b ← load channel_args;
  match b with channel_args_struct ca => ret ca | _ => undefined_behaviour end.

(** [channel_args->num_args = n]. *)
Definition store_num_args (channel_args : positive) (n : nat) : C unit :=
  ca ← load_channel_args channel_args;
  store channel_args (channel_args_struct {| num_args := n; args := args ca |}).

(** [channel_args->args = a]. *)
Definition store_args (channel_args : positive) (a : option positive) : C unit :=
  ca ← load_channel_args channel_args;
  store channel_args (channel_args_struct {| num_args := num_args ca; args := a |}).

(** [arr[i]]. *)
Definition load_elem (arr : option positive) (i : nat) : C grpc_arg :=
  match arr with
  | None => undefined_behaviour
  | Some a =>
      b ← load a;
      match b with
      | arg_array l =>
          match l !! i with Some x => ret x | None => undefined_behaviour end
      | _ => undefined_behaviour
      end
  end.

(** An assignment to a member of [arr[i]]. *)
Definition update_elem (arr : option positive) (i : nat) (f : grpc_arg → grpc_arg) : C unit :=
  match arr with
  | None => undefined_behaviour
  | Some a =>
      b ← load a;
      match b with
      | arg_array l =>
          match l !! i with
          | Some x => store a (arg_array (<[i := f x]> l))
          | None => undefined_behaviour
          end
      | _ => undefined_behaviour
      end
  end.

(** [channel_args->args[i]]. *)
Definition load_arg (channel_args : positive) (i : nat) : C grpc_arg :=
  ca ← load_channel_args channel_args;
  load_elem (args ca) i.

(** An assignment to a member of [channel_args->args[i]]. *)
Definition update_arg (channel_args : positive) (i : nat) (f : grpc_arg → grpc_arg) : C unit :=
  ca ← load_channel_args channel_args;
  update_elem (args ca) i f.

Definition set_type (t : grpc_arg_type) (a : grpc_arg) : grpc_arg :=
  {| type := t; key := key a; value := value a |}.

Definition set_key (k : option positive) (a : grpc_arg) : grpc_arg :=
  {| type := type a; key := k; value := value a |}.

Definition set_value (v : grpc_arg_value) (a : grpc_arg) : grpc_arg :=
  {| type := type a; key := key a; value := v |}.

Section channel.

(** The build passes the package version as the macro
    [GRPC_NODE_VERSION]. *)
Variable GRPC_NODE_VERSION : string.

(** The key of the primary user agent argument, a macro of the gRPC
    core headers. *)
Definition GRPC_ARG_PRIMARY_USER_AGENT_STRING : string := "grpc.primary_user_agent".

Definition grpc_node_user_agent : string := "grpc-node/" +:+ GRPC_NODE_VERSION.

(** [arg] is a pointer into an argument array: the array and an index. *)
Definition PopulateUserAgentChannelArg (arg : option positive * nat) : C unit :=
  let key_len := length (c_string GRPC_ARG_PRIMARY_USER_AGENT_STRING) in
  let val_len := length (c_string grpc_node_user_agent) in
  k ← calloc_chars key_len;
  update_elem arg.1 arg.2 (set_key (Some k));;
  memcpy k 0 (c_string GRPC_ARG_PRIMARY_USER_AGENT_STRING) key_len;;
  update_elem arg.1 arg.2 (set_type GRPC_ARG_STRING);;
  v ← calloc_chars val_len;
  update_elem arg.1 arg.2 (set_value (value_string (Some v)));;
  memcpy v 0 (c_string grpc_node_user_agent) val_len.

(** The body of the [for] loop of [ParseChannelArgs] from index [i] on,
    [keys] being the property names not yet visited; [false] is the
    [return false] inside the loop. *)
Fixpoint ParseChannelArgs_loop (channel_args : positive) (args_hash : Value)
    (keys : list Value) (i : nat) : C bool :=
  match keys with
  | [] => ret true
  | key :: keys' =>
      match Utf8String key with
      | None => ret false
      | Some key_str =>
          let value := Get args_hash key in
          stored ←
            (if IsInt32 value then
               update_arg channel_args i (set_type GRPC_ARG_INTEGER);;
               update_arg channel_args i (set_value (value_integer (To_integer value)));;
               ret true
             else if IsString value then
               match Utf8String value with
               | None => undefined_behaviour
               | Some val_str =>
                   update_arg channel_args i (set_type GRPC_ARG_STRING);;
                   (if decide (strcmp (c_string key_str)
                                 (c_string GRPC_ARG_PRIMARY_USER_AGENT_STRING) = 0)
                    then
                      let val_str_len := String.length val_str in
                      let user_agent_len := length (c_string grpc_node_user_agent) in
                      p ← calloc_chars (val_str_len + user_agent_len + 1);
                      update_arg channel_args i (set_value (value_string (Some p)));;
                      memcpy p 0 (c_string val_str) (String.length val_str);;
                      store_char p val_str_len " "%char;;
                      memcpy p (val_str_len + 1) (c_string grpc_node_user_agent)
                        user_agent_len
                    else
                      p ← calloc_chars (String.length val_str + 1);
                      update_arg channel_args i (set_value (value_string (Some p)));;
                      memcpy p 0 (c_string val_str) (String.length val_str + 1));;
                   ret true
               end
             else ret false);
          if stored : bool then
            k ← calloc_chars (String.length key_str + 1);
            update_arg channel_args i (set_key (Some k));;
            memcpy k 0 (c_string key_str) (String.length key_str + 1);;
            ParseChannelArgs_loop channel_args args_hash keys' (S i)
          else ret false
      end
  end.

(** The result is the returned flag and the pointer left in
    [*channel_args_ptr].  The struct comes from [malloc]; both of its
    members are written before they are read. *)
Definition ParseChannelArgs (args_val : Value) : C (bool * option positive) :=
  let args_val :=
    if IsUndefined args_val || IsNull args_val then VObject [] else args_val in
  if negb (IsObject args_val) then ret (false, NULL)
  else
    channel_args ← alloc (channel_args_struct {| num_args := 0; args := NULL |});
    let args_hash := args_val in
    let keys := GetOwnPropertyNames args_hash in
    store_num_args channel_args (length keys);;
    let has_user_agent_arg :=
      HasOwnProperty args_hash GRPC_ARG_PRIMARY_USER_AGENT_STRING in
    (if negb has_user_agent_arg
     then ca ← load_channel_args channel_args;
          store_num_args channel_args (num_args ca + 1)
     else ret tt);;
    ca ← load_channel_args channel_args;
    a ← calloc_args (num_args ca);
    store_args channel_args (Some a);;
    completed ← ParseChannelArgs_loop channel_args args_hash keys 0;
    if completed : bool then
      (if negb has_user_agent_arg
       then ca ← load_channel_args channel_args;
            PopulateUserAgentChannelArg (args ca, (num_args ca - 1)%nat)
       else ret tt);;
      ret (true, Some channel_args)
    else ret (false, Some channel_args).

(** The [for] loop of [DeallocateChannelArgs] from index [i] on, with
    [remaining] = [num_args - i] iterations to go; the [break] ends it. *)
Fixpoint DeallocateChannelArgs_loop (channel_args : positive) (i remaining : nat) : C unit :=
  match remaining with
  | O => ret tt
  | S remaining' =>
      a ← load_arg channel_args i;
      match key a with
      | None => ret tt
      | Some k =>
          free (Some k);;
          (if decide (type a = GRPC_ARG_STRING)
           then match value a with
                | value_string p => free p
                | value_integer _ => undefined_behaviour
                end
           else ret tt);;
          DeallocateChannelArgs_loop channel_args (S i) remaining'
      end
  end.

Definition DeallocateChannelArgs (channel_args : option positive) : C unit :=
  match channel_args with
  | None => ret tt
  | Some p =>
      ca ← load_channel_args p;
      DeallocateChannelArgs_loop p 0 (num_args ca);;
      ca ← load_channel_args p;
      free (args ca);;
      free (Some p)
  end.

(** What the gRPC core finds in an argument list: for each of the
    [num_args] entries the char array of the key and, by the type tag,
    the char array of the string value or the integer. *)
Inductive arg_contents :=
| string_arg (cs : list ascii)
| integer_arg (i : Z).

#[global] Instance arg_contents_eq_dec : EqDecision arg_contents.
Proof. solve_decision. Defined.

Definition read_chars (p : option positive) : C (list ascii) :=
  match p with
  | None => undefined_behaviour
  | Some a =>
      b ← load a;
      match b with chars cs => ret cs | _ => undefined_behaviour end
  end.

Definition read_arg (a : grpc_arg) : C (list ascii * arg_contents) :=
  k ← read_chars (key a);
  match type a, value a with
  | GRPC_ARG_STRING, value_string p => v ← read_chars p; ret (k, string_arg v)
  | GRPC_ARG_INTEGER, value_integer i => ret (k, integer_arg i)
  | _, _ => undefined_behaviour
  end.

Fixpoint read_args (channel_args : positive) (i remaining : nat)
  : C (list (list ascii * arg_contents)) :=
  match remaining with
  | O => ret []
  | S remaining' =>
      a ← load_arg channel_args i;
      e ← read_arg a;
      es ← read_args channel_args (S i) remaining';
      ret (e :: es)
  end.

Definition read_channel_args (channel_args : option positive)
  : C (list (list ascii * arg_contents)) :=
  match channel_args with
  | None => ret []
  | Some p => ca ← load_channel_args p; read_args p 0 (num_args ca)
  end.

(** ** The Channel wrapper *)

Record Channel := Build_Channel { wrapped_channel : option grpc_channel }.

(** The calls into the gRPC core and the completion queue, with the
    arguments as the callee finds them.  The completion queue argument
    is the one global queue and is left out; a deadline is kept as the
    number of milliseconds given to [MillisecondsToTimespec]; the tag of
    a watch is named by the callback it holds. *)
Inductive core_call :=
| grpc_insecure_channel_create (target : list ascii)
    (channel_args : list (list ascii * arg_contents))
| grpc_secure_channel_create (creds : grpc_channel_credentials)
    (target : list ascii) (channel_args : list (list ascii * arg_contents))
| grpc_channel_destroy (channel : grpc_channel)
| grpc_channel_get_target (channel : grpc_channel)
| grpc_channel_check_connectivity_state (channel : grpc_channel)
    (try_to_connect : Z)
| grpc_channel_watch_connectivity_state (channel : grpc_channel)
    (last_observed_state : Z) (deadline : Number) (callback : positive)
| CompletionQueueNext
| grpc_channel_create_call (channel : grpc_channel)
    (parent_call : option grpc_call) (propagation_mask : Z)
    (method : list ascii) (host : option (list ascii)) (deadline : Number).

Record world := Build_world {
  heap : gmap positive block;
  channels : gmap positive Channel;
  log : list core_call
}.

(** Computations of the methods: state passing over the world. *)
Definition JS (A : Type) : Type := world → option (A * world).

#[global] Instance JS_ret : MRet JS := λ A a w, Some (a, w).

#[global] Instance JS_bind : MBind JS :=
  λ A B f m w, match m w with Some (a, w') => f a w' | None => None end.

Definition lift {A} (m : C A) : JS A :=
  λ w, match m (heap w) with
       | Some (a, h') =>
           Some (a, {| heap := h'; channels := channels w; log := log w |})
       | None => None
       end.

(** How a method ends: with a return value, or with the exception that
    [Nan::ThrowTypeError] or [Nan::ThrowError] leaves pending. *)
Inductive outcome :=
| Return (v : Value)
| ThrowTypeError (msg : string)
| ThrowError (msg : string).

Record FunctionCallbackInfo := Build_FunctionCallbackInfo {
  This : Value;
  IsConstructCall : bool;
  arguments : list Value
}.

(** [info[i]]; an index past the arguments reads [undefined]. *)
Definition arg (info : FunctionCallbackInfo) (i : nat) : Value :=
  nth i (arguments info) VUndefined.

Definition HasInstance (val : Value) : bool :=
  match val with VChannel _ => true | _ => false end.

Definition ChannelCredentials_HasInstance (val : Value) : bool :=
  match val with VChannelCredentials _ => true | _ => false end.

Definition Call_HasInstance (val : Value) : bool :=
  match val with VCall _ => true | _ => false end.

(** [ObjectWrap::Unwrap<ChannelCredentials>(val)->GetWrappedCredentials()]. *)
Definition GetWrappedCredentials (val : Value) : option grpc_channel_credentials :=
  match val with VChannelCredentials creds => creds | _ => NULL end.

(** [ObjectWrap::Unwrap<Call>(val)->GetWrappedCall()]. *)
Definition GetWrappedCall (val : Value) : option grpc_call :=
  match val with VCall call => call | _ => NULL end.

(** [ObjectWrap::Unwrap<Channel>(val)]: the wrapped object and its name. *)
Definition Unwrap (val : Value) : JS (positive * Channel) :=
  λ w, match val with
       | VChannel obj =>
           match channels w !! obj with
           | Some channel => Some ((obj, channel), w)
           | None => None
           end
       | _ => None
       end.

(** [channel->Wrap(info.This())]: the receiver of a construct call is a
    new instance of the template; it gets a name that is not in use. *)
Definition Wrap (channel : Channel) : JS Value :=
  λ w, let obj := fresh (dom (channels w)) in
       Some (VChannel obj,
             {| heap := heap w; channels := <[obj := channel]> (channels w);
                log := log w |}).

(** [channel->wrapped_channel = c]. *)
Definition set_wrapped_channel (obj : positive) (c : option grpc_channel) : JS unit :=
  λ w, Some (tt, {| heap := heap w;
                    channels := <[obj := {| wrapped_channel := c |}]> (channels w);
                    log := log w |}).

(** The memory of the wrapped object [obj] is given back. *)
Definition release_object (obj : positive) : JS unit :=
  λ w, Some (tt, {| heap := heap w; channels := delete obj (channels w);
                    log := log w |}).

(** A call into the core is appended to the log. *)
Definition call_core (c : core_call) : JS unit :=
  λ w, Some (tt, {| heap := heap w; channels := channels w; log := log w ++ [c] |}).

Definition get_log : JS (list core_call) := λ w, Some (log w, w).

(** Modelled from the spec: [CreateSliceFromString] is defined in
    slice.cc and [grpc_slice_unref] in the gRPC core, neither of which
    is part of this file.  The spec calls the result of the former a
    transient encoding of the string in the transport's wire format,
    to be released after use: creating a slice allocates its buffer,
    and dropping the one reference releases it. *)
Definition CreateSliceFromString (source : string) : C positive :=
  alloc (slice (list_ascii_of_string source)).

Definition grpc_slice_unref (s : positive) : C unit :=
  b ← load s;
  match b with slice _ => free (Some s) | _ => undefined_behaviour end.

Definition read_slice (s : positive) : C (list ascii) :=
  b ← load s;
  match b with slice bytes => ret bytes | _ => undefined_behaviour end.

(** [new grpc_slice], [*host = s] and the read of [*host]. *)
Definition new_grpc_slice : C positive := alloc (slice_box NULL).

Definition store_slice (host s : positive) : C unit :=
  b ← load host;
  match b with
  | slice_box _ => store host (slice_box (Some s))
  | _ => undefined_behaviour
  end.

Definition read_slice_box (host : positive) : C (list ascii) :=
  b ← load host;
  match b with
  | slice_box (Some s) => read_slice s
  | _ => undefined_behaviour
  end.

(** Modelled from the spec: the enumeration [grpc_connectivity_state]
    is declared in the gRPC core headers, outside this file.  The
    glossary of the spec lists its members: idle, connecting, ready,
    transient failure, shutdown; the core numbers them from 0. *)
Inductive grpc_connectivity_state :=
| GRPC_CHANNEL_IDLE
| GRPC_CHANNEL_CONNECTING
| GRPC_CHANNEL_READY
| GRPC_CHANNEL_TRANSIENT_FAILURE
| GRPC_CHANNEL_SHUTDOWN.

Definition connectivity_state_code (s : grpc_connectivity_state) : Z :=
  match s with
  | GRPC_CHANNEL_IDLE => 0
  | GRPC_CHANNEL_CONNECTING => 1
  | GRPC_CHANNEL_READY => 2
  | GRPC_CHANNEL_TRANSIENT_FAILURE => 3
  | GRPC_CHANNEL_SHUTDOWN => 4
  end.

(** A value is a recognized connectivity state when it is the code of
    a member of the enumeration. *)
Definition recognized_state (v : Value) : Prop :=
  ∃ s, v = VNumber (Integral (connectivity_state_code s)).

(** The results of the gRPC core.  The core is outside this file: what
    a call returns is a parameter, a function of the log up to and
    including the call. *)
Variable core_channel : list core_call → option grpc_channel.
Variable core_target : list core_call → string.
Variable core_connectivity_state : list core_call → Z.
Variable core_call_result : list core_call → option grpc_call.

(** [Call::WrapStruct], defined in call.cc. *)
Variable Call_WrapStruct : option grpc_call → Value.

(** The default propagation mask, a macro of the gRPC core headers. *)
Variable GRPC_PROPAGATE_DEFAULTS : Z.

(** The [if (info.IsConstructCall())] branch of [Channel::New]. *)
Definition New_construct_call (info : FunctionCallbackInfo) : JS outcome :=
  if negb (IsString (arg info 0)) then
    mret (ThrowTypeError "Channel expects a string, a credential and an object")
  else
    match Utf8String (arg info 0) with
    | None => lift undefined_behaviour
    | Some host =>
        if negb (ChannelCredentials_HasInstance (arg info 1)) then
          mret (ThrowTypeError "Channel's second argument must be a ChannelCredentials")
        else
          let creds := GetWrappedCredentials (arg info 1) in
          parsed ← lift (ParseChannelArgs (arg info 2));
          let channel_args_ptr := parsed.2 in
          if negb parsed.1 then
            lift (DeallocateChannelArgs channel_args_ptr);;
            mret (ThrowTypeError
                    ("Channel options must be an object with " +:+
                     "string keys and integer or string values"))
          else
            channel_args ← lift (read_channel_args channel_args_ptr);
            match creds with
            | None =>
                call_core (grpc_insecure_channel_create (c_string host) channel_args)
            | Some creds =>
                call_core (grpc_secure_channel_create creds (c_string host) channel_args)
            end;;
            calls ← get_log;
            let wrapped_channel := core_channel calls in
            lift (DeallocateChannelArgs channel_args_ptr);;
            this ← Wrap {| wrapped_channel := wrapped_channel |};
            mret (Return this)
    end.

(** [Channel::New].  Called as a plain function it constructs an
    instance through [Nan::NewInstance], which runs the construct call
    on the first three arguments; an exception of that call stays
    pending. *)
Definition New (info : FunctionCallbackInfo) : JS outcome :=
  if IsConstructCall info then New_construct_call info
  else
    let argv := [arg info 0; arg info 1; arg info 2] in
    New_construct_call
      {| This := VUndefined; IsConstructCall := true; arguments := argv |}.

(** [Channel::~Channel], run when the wrapped object [obj] is collected. *)
Definition Channel_destructor (obj : positive) : JS unit :=
  this ← Unwrap (VChannel obj);
  match wrapped_channel this.2 with
  | Some c => call_core (grpc_channel_destroy c)
  | None => mret tt
  end;;
  release_object obj.

Definition Close (info : FunctionCallbackInfo) : JS outcome :=
  if negb (HasInstance (This info)) then
    mret (ThrowTypeError "close can only be called on Channel objects")
  else
    channel ← Unwrap (This info);
    match wrapped_channel channel.2 with
    | Some c =>
        call_core (grpc_channel_destroy c);;
        set_wrapped_channel channel.1 NULL
    | None => mret tt
    end;;
    mret (Return VUndefined).

Definition GetTarget (info : FunctionCallbackInfo) : JS outcome :=
  if negb (HasInstance (This info)) then
    mret (ThrowTypeError "getTarget can only be called on Channel objects")
  else
    channel ← Unwrap (This info);
    match wrapped_channel channel.2 with
    | None => mret (ThrowError "Cannot call getTarget on a closed Channel")
    | Some c =>
        call_core (grpc_channel_get_target c);;
        calls ← get_log;
        mret (Return (VString (core_target calls)))
    end.

Definition GetConnectivityState (info : FunctionCallbackInfo) : JS outcome :=
  if negb (HasInstance (This info)) then
    mret (ThrowTypeError "getConnectivityState can only be called on Channel objects")
  else
    channel ← Unwrap (This info);
    match wrapped_channel channel.2 with
    | None =>
        mret (ThrowError "Cannot call getConnectivityState on a closed Channel")
    | Some c =>
        let try_to_connect := Z.b2z (StrictEquals_True (arg info 0)) in
        call_core (grpc_channel_check_connectivity_state c try_to_connect);;
        calls ← get_log;
        mret (Return (VNumber (Integral (core_connectivity_state calls))))
    end.

Definition WatchConnectivityState (info : FunctionCallbackInfo) : JS outcome :=
  if negb (HasInstance (This info)) then
    mret (ThrowTypeError "watchConnectivityState can only be called on Channel objects")
  else if negb (IsUint32 (arg info 0)) then
    mret (ThrowTypeError "watchConnectivityState's first argument must be a channel state")
  else if negb (IsNumber (arg info 1) || IsDate (arg info 1)) then
    mret (ThrowTypeError "watchConnectivityState's second argument must be a date or a number")
  else
    match arg info 2 with
    | VFunction callback_func =>
        (* [info[2]->IsFunction()], then [info[2].As<Function>()] *)
        channel ← Unwrap (This info);
        match wrapped_channel channel.2 with
        | None =>
            mret (ThrowError "Cannot call watchConnectivityState on a closed Channel")
        | Some c =>
            let last_state := To_integer (arg info 0) in
            let deadline := To_double (arg info 1) in
            call_core (grpc_channel_watch_connectivity_state c last_state deadline
                         callback_func);;
            call_core CompletionQueueNext;;
            mret (Return VUndefined)
        end
    | _ =>
        mret (ThrowTypeError "watchConnectivityState's third argument must be a callback")
    end.

Definition CreateCall (info : FunctionCallbackInfo) : JS outcome :=
  if negb (HasInstance (This info)) then
    mret (ThrowTypeError "createCall can only be called on Channel objects")
  else if negb (IsString (arg info 0)) then
    mret (ThrowTypeError "createCall's first argument must be a string")
  else if negb (IsNumber (arg info 1) || IsDate (arg info 1)) then
    mret (ThrowTypeError "createcall's second argument must be a date or a number")
  else if negb (Call_HasInstance (arg info 3))
          && negb (IsUndefined (arg info 3) || IsNull (arg info 3)) then
    mret (ThrowTypeError "createCall's fourth argument must be another call, if provided")
  else
    let parent_call :=
      if Call_HasInstance (arg info 3) then GetWrappedCall (arg info 3) else NULL in
    if negb (IsUint32 (arg info 4))
       && negb (IsUndefined (arg info 4) || IsNull (arg info 4)) then
      mret (ThrowTypeError "createCall's fifth argument must be propagate flags, if provided")
    else
      let propagate_flags :=
        if IsUint32 (arg info 4) then To_integer (arg info 4)
        else GRPC_PROPAGATE_DEFAULTS in
      channel ← Unwrap (This info);
      match wrapped_channel channel.2 with
      | None => mret (ThrowError "Cannot createCall with a closed Channel")
      | Some wrapped_channel =>
          match Utf8String (arg info 0) with
          | None => lift undefined_behaviour
          | Some method_str =>
              method ← lift (CreateSliceFromString method_str);
              let deadline := To_double (arg info 1) in
              match arg info 2 with
              | VString host_str =>
                  host ← lift new_grpc_slice;
                  host_slice ← lift (CreateSliceFromString host_str);
                  lift (store_slice host host_slice);;
                  method_bytes ← lift (read_slice method);
                  host_bytes ← lift (read_slice_box host);
                  call_core (grpc_channel_create_call wrapped_channel parent_call
                               propagate_flags method_bytes (Some host_bytes) deadline);;
                  calls ← get_log;
                  let wrapped_call := core_call_result calls in
                  lift (free (Some host));;
                  lift (grpc_slice_unref method);;
                  mret (Return (Call_WrapStruct wrapped_call))
              | VUndefined | VNull =>
                  method_bytes ← lift (read_slice method);
                  call_core (grpc_channel_create_call wrapped_channel parent_call
                               propagate_flags method_bytes NULL deadline);;
                  calls ← get_log;
                  let wrapped_call := core_call_result calls in
                  lift (grpc_slice_unref method);;
                  mret (Return (Call_WrapStruct wrapped_call))
              | _ =>
                  mret (ThrowTypeError "createCall's third argument must be a string")
              end
          end
      end.

(** The methods that a script can call, and a sequence of such calls. *)
Inductive method :=
| Channel_New
| Channel_Close
| Channel_GetTarget
| Channel_GetConnectivityState
| Channel_WatchConnectivityState
| Channel_CreateCall.

Definition call_method (m : method) (info : FunctionCallbackInfo) : JS outcome :=
  match m with
  | Channel_New => New info
  | Channel_Close => Close info
  | Channel_GetTarget => GetTarget info
  | Channel_GetConnectivityState => GetConnectivityState info
  | Channel_WatchConnectivityState => WatchConnectivityState info
  | Channel_CreateCall => CreateCall info
  end.

Fixpoint call_methods (calls : list (method * FunctionCallbackInfo)) : JS unit :=
  match calls with
  | [] => mret tt
  | (m, info) :: calls' => call_method m info;; call_methods calls'
  end.

(** ** Reasoning about heap computations *)

(** [m] runs from [h] without undefined behaviour and its result and
    final heap satisfy [Q]. *)
Definition wp {A} (m : C A) (h : gmap positive block)
    (Q : A → gmap positive block → Prop) : Prop :=
  ∃ a h', m h = Some (a, h') ∧ Q a h'.

(** The blocks that a populated entry owns. *)
Definition arg_blocks (a : grpc_arg) : list positive :=
  match key a with
  | None => []
  | Some k =>
      k :: match type a, value a with
           | GRPC_ARG_STRING, value_string (Some v) => [v]
           | _, _ => []
           end
  end.

(** Entry [a] is populated in [h] with the key array and the contents [e]. *)
Definition holds (h : gmap positive block) (a : grpc_arg)
    (e : list ascii * arg_contents) : Prop :=
  ∃ k, key a = Some k ∧ h !! k = Some (chars e.1) ∧
       match e.2 with
       | integer_arg i => type a = GRPC_ARG_INTEGER ∧ value a = value_integer i
       | string_arg cs =>
           type a = GRPC_ARG_STRING ∧
           ∃ v, value a = value_string (Some v) ∧ h !! v = Some (chars cs)
       end.

Definition delete_all (l : list positive) (h : gmap positive block)
  : gmap positive block := foldr delete h l.

(** The heap [h] is [h0] and an argument list at [p], with the array
    at [a], of [n] entries of which the first [length pop] are
    populated with the contents [es] and the others are zero. *)
Record parsed (h0 h : gmap positive block) (p a : positive) (n : nat)
    (pop : list grpc_arg) (es : list (list ascii * arg_contents)) : Prop := {
  parsed_struct :
    h !! p = Some (channel_args_struct {| num_args := n; args := Some a |});
  parsed_array :
    h !! a = Some (arg_array (pop ++ replicate (n - length pop) zero_arg));
  parsed_length : (length pop ≤ n)%nat;
  parsed_holds : Forall2 (holds h) pop es;
  parsed_NoDup : NoDup (p :: a :: concat (arg_blocks <$> pop));
  parsed_frame : delete_all (p :: a :: concat (arg_blocks <$> pop)) h = h0
}.

(** A number whose value is a whole number, of any size. *)
Definition is_integer (v : Value) : bool :=
  match v with
  | VNumber (Integral _) | VNumber NegativeZero => true
  | _ => false
  end.

(** The properties that the encoder takes. *)
Definition accepted (kv : string * Value) : bool := IsInt32 kv.2 || IsString kv.2.

(** The test that the encoder applies to a key before it stores a
    string value. *)
Definition is_user_agent_key (k : string) : bool :=
  bool_decide (strcmp (c_string k) (c_string GRPC_ARG_PRIMARY_USER_AGENT_STRING) = 0).

(** What the encoder stores for an accepted property [kv] (the last
    case is never used). *)
Definition encoded (kv : string * Value) : list ascii * arg_contents :=
  (c_string kv.1,
   if IsInt32 kv.2 then integer_arg (To_integer kv.2)
   else match kv.2 with
        | VString s =>
            if is_user_agent_key kv.1
            then string_arg (list_ascii_of_string s ++ " "%char :: c_string grpc_node_user_agent)
            else string_arg (c_string s)
        | _ => integer_arg 0
        end).

Definition user_agent_entry : list ascii * arg_contents :=
  (c_string GRPC_ARG_PRIMARY_USER_AGENT_STRING, string_arg (c_string grpc_node_user_agent)).

(** The contents of the argument list that a successful pass builds. *)
Definition encoded_list (props : list (string * Value)) : list (list ascii * arg_contents) :=
  (encoded <$> props) ++
  (if bool_decide (GRPC_ARG_PRIMARY_USER_AGENT_STRING ∈ props.*1) then []
   else [user_agent_entry]).

(** The object that [ParseChannelArgs] reads: null and undefined stand
    for the empty object. *)
Definition options_object (args_val : Value) : Value :=
  if IsUndefined args_val || IsNull args_val then VObject [] else args_val.

(** ** Statements about the wrapper *)

(** [n] calls of [close] in a row. *)
Fixpoint Close_times (n : nat) (info : FunctionCallbackInfo) : JS unit :=
  match n with
  | O => mret tt
  | S n' => Close info;; Close_times n' info
  end.

(** The call that [Channel::New] makes for the wrapped credentials
    pointer [creds]. *)
Definition channel_create_call (creds : option grpc_channel_credentials)
    (target : string) (channel_args : list (list ascii * arg_contents)) : core_call :=
  match creds with
  | None => grpc_insecure_channel_create (c_string target) channel_args
  | Some creds => grpc_secure_channel_create creds (c_string target) channel_args
  end.

(** The options that [ParseChannelArgs] accepts. *)
Definition options_accepted (options : Value) : Prop :=
  IsObject (options_object options) = true ∧
  forallb accepted (own_properties (options_object options)) = true.

(** [createCall] on an open channel, with arguments that pass the
    checks made before the host is looked at. *)
Definition createCall_checks_pass (info : FunctionCallbackInfo) : Prop :=
  IsString (arg info 0) = true ∧
  IsNumber (arg info 1) || IsDate (arg info 1) = true ∧
  Call_HasInstance (arg info 3) || IsUndefined (arg info 3) || IsNull (arg info 3) = true ∧
  IsUint32 (arg info 4) || IsUndefined (arg info 4) || IsNull (arg info 4) = true.

Definition createCall_parent (info : FunctionCallbackInfo) : option grpc_call :=
  if Call_HasInstance (arg info 3) then GetWrappedCall (arg info 3) else NULL.

Definition createCall_flags (info : FunctionCallbackInfo) : Z :=
  if IsUint32 (arg info 4) then To_integer (arg info 4) else GRPC_PROPAGATE_DEFAULTS.

(** No computation of the wrapper reopens a closed channel. *)
Definition keeps_closed {A} (m : JS A) : Prop :=
  ∀ obj w a w',
    channels w !! obj = Some {| wrapped_channel := NULL |} →
    m w = Some (a, w') →
    channels w' !! obj = Some {| wrapped_channel := NULL |}.

(** ** Statements about the rest of the code *)

(** How C reads a char array as a string: the chars before the first
    NUL, the reading that [strcmp] compares. *)
Fixpoint c_str (cs : list ascii) : list ascii :=
  match cs with
  | [] => []
  | c :: cs' => if is_nul c then [] else c :: c_str cs'
  end.

(** The calls that release a channel handle, and the calls that are
    given one. *)
Definition is_destroy (e : core_call) : bool :=
  match e with grpc_channel_destroy _ => true | _ => false end.

Definition uses_channel (e : core_call) : bool :=
  match e with
  | grpc_channel_destroy _ | grpc_channel_get_target _
  | grpc_channel_check_connectivity_state _ _
  | grpc_channel_watch_connectivity_state _ _ _ _
  | grpc_channel_create_call _ _ _ _ _ _ => true
  | _ => false
  end.

(** A computation that leaves every wrapped object it finds as it is
    and adds to the log only calls that satisfy [P]. *)
Definition appends {A} (P : core_call → Prop) (m : JS A) : Prop :=
  ∀ w a w',
    m w = Some (a, w') →
    (∀ obj, is_Some (channels w !! obj) → channels w' !! obj = channels w !! obj) ∧
    ∃ l, log w' = log w ++ l ∧ Forall P l.

(** *** Rules of the heap computations *)

Lemma wp_ret {A} (a : A) h Q : Q a h → wp (mret a) h Q.
Proof. intros HQ. exists a, h. done. Qed.

Lemma wp_bind {A B} (m : C A) (f : A → C B) h Q :
  wp m h (λ a h', wp (f a) h' Q) → wp (m ≫= f) h Q.
Proof.
  intros (a & h' & Hm & b & h'' & Hf & HQ).
  exists b, h''. split; [|done].
  unfold mbind, C_bind. by rewrite Hm.
Qed.

Lemma wp_mono {A} (m : C A) h (Q Q' : A → gmap positive block → Prop) :
  wp m h Q → (∀ a h', Q a h' → Q' a h') → wp m h Q'.
Proof. intros (a & h' & Hm & HQ) HQQ. exists a, h'. eauto. Qed.

Lemma wp_alloc b h Q :
  (∀ p, h !! p = None → Q p (<[p := b]> h)) → wp (alloc b) h Q.
Proof.
  intros HQ. eexists _, _. split; [reflexivity|].
  apply HQ, not_elem_of_dom, is_fresh.
Qed.

Lemma wp_free a b h (Q : unit → gmap positive block → Prop) :
  h !! a = Some b → Q tt (delete a h) → wp (free (Some a)) h Q.
Proof. intros Ha HQ. exists tt, (delete a h). unfold free. by rewrite Ha. Qed.

Lemma wp_load p b h Q : h !! p = Some b → Q b h → wp (load p) h Q.
Proof. intros Hp HQ. exists b, h. unfold load. by rewrite Hp. Qed.

Lemma wp_store p b b' h (Q : unit → gmap positive block → Prop) :
  h !! p = Some b' → Q tt (<[p := b]> h) → wp (store p b) h Q.
Proof. intros Hp HQ. exists tt, (<[p := b]> h). unfold store. by rewrite Hp. Qed.

Lemma wp_load_channel_args p ca h Q :
  h !! p = Some (channel_args_struct ca) → Q ca h →
  wp (load_channel_args p) h Q.
Proof.
  intros Hp HQ. apply wp_bind. eapply wp_load; [done|]. by apply wp_ret.
Qed.

Lemma wp_store_num_args p ca n h (Q : unit → gmap positive block → Prop) :
  h !! p = Some (channel_args_struct ca) →
  Q tt (<[p := channel_args_struct {| num_args := n; args := args ca |}]> h) →
  wp (store_num_args p n) h Q.
Proof.
  intros Hp HQ. apply wp_bind. eapply wp_load_channel_args; [done|].
  by eapply wp_store.
Qed.

Lemma wp_store_args p ca a h (Q : unit → gmap positive block → Prop) :
  h !! p = Some (channel_args_struct ca) →
  Q tt (<[p := channel_args_struct {| num_args := num_args ca; args := a |}]> h) →
  wp (store_args p a) h Q.
Proof.
  intros Hp HQ. apply wp_bind. eapply wp_load_channel_args; [done|].
  by eapply wp_store.
Qed.

Lemma wp_load_elem a l i x h Q :
  h !! a = Some (arg_array l) → l !! i = Some x → Q x h →
  wp (load_elem (Some a) i) h Q.
Proof.
  intros Ha Hi HQ. apply wp_bind. eapply wp_load; [done|].
  simpl. rewrite Hi. by apply wp_ret.
Qed.

Lemma wp_update_elem a l i x f h (Q : unit → gmap positive block → Prop) :
  h !! a = Some (arg_array l) → l !! i = Some x →
  Q tt (<[a := arg_array (<[i := f x]> l)]> h) →
  wp (update_elem (Some a) i f) h Q.
Proof.
  intros Ha Hi HQ. apply wp_bind. eapply wp_load; [done|].
  simpl. rewrite Hi. by eapply wp_store.
Qed.

Lemma wp_load_arg p n a l i x h Q :
  h !! p = Some (channel_args_struct {| num_args := n; args := Some a |}) →
  h !! a = Some (arg_array l) → l !! i = Some x → Q x h →
  wp (load_arg p i) h Q.
Proof.
  intros Hp Ha Hi HQ. apply wp_bind. eapply wp_load_channel_args; [done|].
  by eapply wp_load_elem.
Qed.

Lemma wp_update_arg p n a l i x f h (Q : unit → gmap positive block → Prop) :
  h !! p = Some (channel_args_struct {| num_args := n; args := Some a |}) →
  h !! a = Some (arg_array l) → l !! i = Some x →
  Q tt (<[a := arg_array (<[i := f x]> l)]> h) →
  wp (update_arg p i f) h Q.
Proof.
  intros Hp Ha Hi HQ. apply wp_bind. eapply wp_load_channel_args; [done|].
  by eapply wp_update_elem.
Qed.

Lemma wp_memcpy dst off src n cs h (Q : unit → gmap positive block → Prop) :
  h !! dst = Some (chars cs) →
  (off + n ≤ length cs)%nat → (n ≤ length src)%nat →
  Q tt (<[dst := chars (take off cs ++ take n src ++ drop (off + n) cs)]> h) →
  wp (memcpy dst off src n) h Q.
Proof.
  intros Hd Hlen Hsrc HQ. apply wp_bind. eapply wp_load; [done|].
  simpl. rewrite decide_True by done. by eapply wp_store.
Qed.

Lemma wp_read_chars a cs h Q :
  h !! a = Some (chars cs) → Q cs h → wp (read_chars (Some a)) h Q.
Proof.
  intros Ha HQ. apply wp_bind. eapply wp_load; [done|]. by apply wp_ret.
Qed.

(** *** Releasing an argument list *)

Lemma lookup_delete_all l h i :
  delete_all l h !! i = if decide (i ∈ l) then None else h !! i.
Proof.
  induction l as [|x l IH]; simpl.
  - done.
  - rewrite lookup_delete, IH.
    repeat case_decide; set_solver.
Qed.

Lemma delete_all_app l l' h :
  delete_all (l ++ l') h = delete_all l' (delete_all l h).
Proof.
  apply map_eq. intros i. rewrite !lookup_delete_all.
  repeat case_decide; set_solver.
Qed.

Lemma arg_blocks_holds h a e :
  holds h a e →
  ∃ k, key a = Some k ∧ is_Some (h !! k) ∧
       ((type a ≠ GRPC_ARG_STRING ∧ arg_blocks a = [k]) ∨
        (type a = GRPC_ARG_STRING ∧
         ∃ v, value a = value_string (Some v) ∧ is_Some (h !! v) ∧
              arg_blocks a = [k; v])).
Proof.
  intros (k & Hk & Hhk & Hv). exists k. split; [done|]. split; [eauto|].
  unfold arg_blocks. rewrite Hk.
  destruct e as [cs [vs|i]]; simpl in *.
  - destruct Hv as (Ht & v & Hv & Hhv). right. rewrite Ht, Hv. eauto 6.
  - destruct Hv as (Ht & Hv). left. by rewrite Ht.
Qed.

Lemma holds_live h a e i : holds h a e → i ∈ arg_blocks a → is_Some (h !! i).
Proof.
  intros (k & Hk & Hhk & [(_ & ->)|(_ & v & _ & Hhv & ->)])%arg_blocks_holds;
    set_solver.
Qed.

Lemma holds_agree h h' a e :
  holds h a e → (∀ i, i ∈ arg_blocks a → h' !! i = h !! i) → holds h' a e.
Proof.
  intros (k & Hk & Hhk & Hv) Hagree. exists k. split; [done|].
  unfold arg_blocks in Hagree. rewrite Hk in Hagree.
  split; [rewrite Hagree; [done|set_solver]|].
  destruct e as [cs [vs|i]]; simpl in *; [|done].
  destruct Hv as (Ht & v & Hv & Hhv). split; [done|].
  exists v. split; [done|]. rewrite Ht, Hv in Hagree.
  rewrite Hagree; [done|set_solver].
Qed.

Lemma Forall2_holds_live h pop es i :
  Forall2 (holds h) pop es → i ∈ concat (arg_blocks <$> pop) → is_Some (h !! i).
Proof.
  induction 1 as [|a e pop es Ha _ IH]; simpl; [set_solver|].
  rewrite elem_of_app. intros [Hi|Hi]; [by eapply holds_live|by apply IH].
Qed.

Lemma DeallocateChannelArgs_loop_spec h0 h p a n pop es :
  parsed h0 h p a n pop es →
  ∀ rest freed, pop = freed ++ rest →
    wp (DeallocateChannelArgs_loop p (length freed) (n - length freed))
       (delete_all (concat (arg_blocks <$> freed)) h)
       (λ _ h', h' = delete_all (concat (arg_blocks <$> pop)) h).
Proof.
  intros [Hp Ha Hlen Hholds Hnd _].
  apply NoDup_cons in Hnd as [Hp_fresh Hnd].
  apply NoDup_cons in Hnd as [Ha_fresh Hnd].
  assert (a ≠ p) as Hap by set_solver.
  induction rest as [|x rest IH]; intros freed ->.
  - rewrite app_nil_r in *.
    destruct (n - length freed)%nat as [|r] eqn:Hr; simpl.
    { by apply wp_ret. }
    apply wp_bind. eapply wp_load_arg.
    + rewrite lookup_delete_all, decide_False by set_solver. done.
    + rewrite lookup_delete_all, decide_False by set_solver. done.
    + rewrite lookup_app_r by lia. rewrite Nat.sub_diag. done.
    + simpl. by apply wp_ret.
  - rewrite length_app in Hlen. simpl in Hlen.
    replace (n - length freed)%nat with (S (n - length (freed ++ [x])))
      by (rewrite length_app; simpl; lia).
    simpl.
    assert ((p ∉ concat (arg_blocks <$> freed)) ∧ (a ∉ concat (arg_blocks <$> freed)))
      as [Hp_done Ha_done].
    { rewrite fmap_app, concat_app in Hp_fresh, Ha_fresh. set_solver. }
    apply Forall2_app_inv_l in Hholds as (es1 & es2 & _ & Hx & _).
    apply Forall2_cons_inv_l in Hx as (e & es3 & Hx & _ & _).
    rewrite fmap_app, concat_app in Hnd. simpl in Hnd.
    apply NoDup_app in Hnd as (_ & Hdisj & Hnd).
    apply NoDup_app in Hnd as (Hndx & _ & _).
    assert (∀ i, i ∈ arg_blocks x → i ∉ concat (arg_blocks <$> freed)) as Hx_done.
    { intros i Hi Hi'. apply (Hdisj i Hi'). set_solver. }
    apply wp_bind. eapply wp_load_arg.
    { rewrite lookup_delete_all, decide_False by done. done. }
    { rewrite lookup_delete_all, decide_False by done. done. }
    { rewrite <-(assoc_L (++)). simpl. apply list_lookup_middle. done. }
    destruct (arg_blocks_holds _ _ _ Hx)
      as (k & Hk & Hlive_k & [(Ht & Hbl)|(Ht & v & Hv & Hlive_v & Hbl)]).
    + rewrite Hk. destruct Hlive_k as [bk Hbk].
      apply wp_bind. eapply wp_free.
      { rewrite lookup_delete_all, decide_False; [done|].
        apply Hx_done. rewrite Hbl. set_solver. }
      apply wp_bind. rewrite decide_False by done. apply wp_ret.
      specialize (IH (freed ++ [x])).
      rewrite <-(assoc_L (++)) in IH. specialize (IH eq_refl).
      rewrite length_app in IH. simpl in IH.
      replace (length freed + 1)%nat with (S (length freed)) in IH by lia.
      rewrite fmap_app, concat_app, delete_all_app in IH. simpl in IH.
      rewrite Hbl in IH. simpl in IH.
      rewrite fmap_app, concat_app in IH |- *. simpl in IH |- *.
      rewrite length_app. simpl.
      replace (length freed + 1)%nat with (S (length freed)) by lia.
      exact IH.
    + rewrite Hk. destruct Hlive_k as [bk Hbk]. destruct Hlive_v as [bv Hbv].
      rewrite Hbl in Hndx. apply NoDup_cons in Hndx as [Hkv _].
      apply wp_bind. eapply wp_free.
      { rewrite lookup_delete_all, decide_False; [done|].
        apply Hx_done. rewrite Hbl. set_solver. }
      apply wp_bind. rewrite decide_True by done. rewrite Hv.
      eapply wp_free.
      { rewrite lookup_delete_ne by set_solver.
        rewrite lookup_delete_all, decide_False; [done|].
        apply Hx_done. rewrite Hbl. set_solver. }
      specialize (IH (freed ++ [x])).
      rewrite <-(assoc_L (++)) in IH. specialize (IH eq_refl).
      rewrite length_app in IH. simpl in IH.
      replace (length freed + 1)%nat with (S (length freed)) in IH by lia.
      rewrite fmap_app, concat_app, delete_all_app in IH. simpl in IH.
      rewrite Hbl in IH. simpl in IH.
      rewrite fmap_app, concat_app in IH |- *. simpl in IH |- *.
      rewrite length_app. simpl.
      replace (length freed + 1)%nat with (S (length freed)) by lia.
      rewrite delete_delete. exact IH.
Qed.

(** Releasing an argument list gives back every block it owns and
    nothing else. *)
Lemma DeallocateChannelArgs_parsed h0 h p a n pop es :
  parsed h0 h p a n pop es →
  DeallocateChannelArgs (Some p) h = Some (tt, h0).
Proof.
  intros Hparsed.
  enough (wp (DeallocateChannelArgs (Some p)) h (λ _ h', h' = h0)) as Hwp.
  { destruct Hwp as ([] & h' & Hrun & ->). done. }
  pose proof (DeallocateChannelArgs_loop_spec _ _ _ _ _ _ _ Hparsed pop [] eq_refl)
    as Hloop.
  destruct Hparsed as [Hp Ha Hlen Hholds Hnd Hframe].
  apply NoDup_cons in Hnd as [Hp_fresh Hnd].
  apply NoDup_cons in Hnd as [Ha_fresh Hnd].
  simpl in Hloop. rewrite Nat.sub_0_r in Hloop.
  unfold DeallocateChannelArgs.
  apply wp_bind. eapply wp_load_channel_args; [done|]. simpl.
  apply wp_bind. eapply wp_mono; [exact Hloop|].
  intros _ h' ->. simpl.
  apply wp_bind. eapply wp_load_channel_args.
  { rewrite lookup_delete_all, decide_False by set_solver. done. }
  simpl. apply wp_bind. eapply wp_free.
  { rewrite lookup_delete_all, decide_False by set_solver. done. }
  eapply wp_free.
  { rewrite lookup_delete_ne by set_solver.
    rewrite lookup_delete_all, decide_False by set_solver. done. }
  rewrite <-Hframe. done.
Qed.

(** *** Building an argument list *)

Lemma length_list_ascii_of_string s :
  length (list_ascii_of_string s) = String.length s.
Proof. induction s; simpl; congruence. Qed.

Lemma length_c_string s : length (c_string s) = (String.length s + 1)%nat.
Proof. unfold c_string. by rewrite length_app, length_list_ascii_of_string. Qed.

(** A [memcpy] that fills a zeroed array. *)
Lemma copy_whole (src : list ascii) :
  take 0 (replicate (length src) zero) ++ take (length src) src ++
    drop (0 + length src) (replicate (length src) zero) = src.
Proof.
  simpl. rewrite firstn_all, drop_replicate, Nat.sub_diag. simpl.
  by rewrite app_nil_r.
Qed.

(** The three writes that join the user's value and the user agent. *)
Lemma copy_user_agent (s u : list ascii) :
  let n := (length s + length u + 1)%nat in
  let cs1 := take 0 (replicate n zero) ++ take (length s) (s ++ [zero]) ++
             drop (0 + length s) (replicate n zero) in
  let cs2 := take (length s) cs1 ++ take 1 [" "%char] ++
             drop (length s + 1) cs1 in
  let cs3 := take (length s + 1) cs2 ++ take (length u) u ++
             drop (length s + 1 + length u) cs2 in
  length cs1 = n ∧ length cs2 = n ∧ cs3 = s ++ " "%char :: u.
Proof.
  intros n cs1 cs2 cs3.
  assert (cs1 = s ++ replicate (length u + 1) zero) as Hcs1.
  { unfold cs1. simpl. rewrite take_app_length, drop_replicate.
    f_equal. f_equal. unfold n. lia. }
  assert (cs2 = s ++ " "%char :: replicate (length u) zero) as Hcs2.
  { unfold cs2. rewrite Hcs1. rewrite take_app_length.
    rewrite drop_app_add'; [|done]. simpl.
    rewrite drop_replicate. do 3 f_equal. lia. }
  split; [|split].
  - rewrite Hcs1, length_app, length_replicate. unfold n. lia.
  - rewrite Hcs2, length_app. simpl. rewrite length_replicate. unfold n. lia.
  - unfold cs3. rewrite Hcs2.
    replace (s ++ " "%char :: replicate (length u) zero)
      with ((s ++ [" "%char]) ++ replicate (length u) zero)
      by (by rewrite <-(assoc_L (++))).
    replace (length s + 1)%nat with (length (s ++ [" "%char]))
      by (rewrite length_app; simpl; lia).
    rewrite take_app_length, firstn_all.
    rewrite drop_app_add'; [|done].
    rewrite drop_replicate, Nat.sub_diag. simpl.
    by rewrite app_nil_r, <-(assoc_L (++)).
Qed.

Lemma lookup_property_NoDup props k v :
  NoDup props.*1 → (k, v) ∈ props → lookup_property props k = Some v.
Proof.
  induction props as [|[k' v'] props IH]; simpl; [set_solver|].
  intros [Hk' Hnd]%NoDup_cons [Heq|Hin]%elem_of_cons.
  - simplify_eq. by rewrite decide_True.
  - rewrite decide_False; [by apply IH|].
    intros ->. apply Hk'. apply list_elem_of_fmap. by exists (k, v).
Qed.

Lemma zero_tail_lookup (pop : list grpc_arg) n :
  (length pop < n)%nat →
  (pop ++ replicate (n - length pop) zero_arg) !! length pop = Some zero_arg.
Proof.
  intros Hlt. rewrite lookup_app_r by lia. rewrite Nat.sub_diag.
  destruct (n - length pop)%nat eqn:Hn; [lia|done].
Qed.

Lemma zero_tail_insert (pop : list grpc_arg) n x :
  (length pop < n)%nat →
  <[length pop := x]> (pop ++ replicate (n - length pop) zero_arg)
  = (pop ++ [x]) ++ replicate (n - length (pop ++ [x])) zero_arg.
Proof.
  intros Hlt. rewrite insert_app_r_alt by lia. rewrite Nat.sub_diag.
  rewrite length_app. simpl.
  destruct (n - length pop)%nat as [|m] eqn:Hn; [lia|]. simpl.
  rewrite <-(assoc_L (++)). simpl. do 3 f_equal. lia.
Qed.

Lemma Forall2_holds_agree h h' pop es :
  Forall2 (holds h) pop es →
  (∀ i, i ∈ concat (arg_blocks <$> pop) → h' !! i = h !! i) →
  Forall2 (holds h') pop es.
Proof.
  induction 1 as [|x e pop es Hx _ IH]; intros Hagree; constructor.
  - eapply holds_agree; [done|]. intros i Hi. apply Hagree. simpl. set_solver.
  - apply IH. intros i Hi. apply Hagree. simpl. set_solver.
Qed.

(** One more entry is populated, in blocks that were free. *)
Lemma parsed_extend h0 h h' p a n pop es x e :
  parsed h0 h p a n pop es →
  (length pop < n)%nat →
  NoDup (arg_blocks x) →
  (∀ i, i ∈ arg_blocks x → h !! i = None) →
  holds h' x e →
  h' !! a = Some (arg_array (<[length pop := x]>
                    (pop ++ replicate (n - length pop) zero_arg))) →
  (∀ i, i ≠ a → i ∉ arg_blocks x → h' !! i = h !! i) →
  parsed h0 h' p a n (pop ++ [x]) (es ++ [e]).
Proof.
  intros [Hp Ha Hlen Hholds Hnd Hframe] Hlt Hndx Hfree Hx Ha' Hagree.
  pose proof Hnd as Hnd'.
  apply NoDup_cons in Hnd' as [Hp_fresh Hnd'].
  apply NoDup_cons in Hnd' as [Ha_fresh Hnd'].
  assert (∀ i, i ∈ concat (arg_blocks <$> pop) → i ∉ arg_blocks x) as Hdisj.
  { intros i Hi Hix. apply (Forall2_holds_live _ _ _ _ Hholds) in Hi as [b Hb].
    rewrite Hfree in Hb; done. }
  assert (p ∉ arg_blocks x) as Hpx.
  { intros Hix. rewrite Hfree in Hp; done. }
  assert (a ∉ arg_blocks x) as Hax.
  { intros Hix. rewrite Hfree in Ha; done. }
  assert (concat (arg_blocks <$> pop ++ [x])
          = concat (arg_blocks <$> pop) ++ arg_blocks x) as Hblocks.
  { rewrite fmap_app, concat_app. simpl. by rewrite app_nil_r. }
  split.
  - rewrite Hagree; [done|set_solver|done].
  - by rewrite Ha', zero_tail_insert.
  - rewrite length_app. simpl. lia.
  - apply Forall2_app; [|by repeat constructor].
    eapply Forall2_holds_agree; [done|].
    intros i Hi. apply Hagree; [set_solver|by apply Hdisj].
  - rewrite Hblocks.
    apply NoDup_cons. split; [set_solver|].
    apply NoDup_cons. split; [set_solver|].
    apply NoDup_app. split; [done|]. split; [done|done].
  - rewrite <-Hframe, Hblocks. apply map_eq. intros i.
    rewrite !lookup_delete_all.
    destruct (decide (i ∈ p :: a :: concat (arg_blocks <$> pop))) as [Hi|Hi].
    { rewrite decide_True; [done|set_solver]. }
    destruct (decide (i ∈ arg_blocks x)) as [Hix|Hix].
    { rewrite decide_True by set_solver. by rewrite Hfree. }
    rewrite decide_False by set_solver.
    apply Hagree; [set_solver|done].
Qed.

Lemma wp_calloc_update {B} p n a l i x N (f : positive → grpc_arg → grpc_arg)
    (rest : positive → C B) h Q :
  h !! p = Some (channel_args_struct {| num_args := n; args := Some a |}) →
  h !! a = Some (arg_array l) → l !! i = Some x →
  (∀ q, h !! q = None → q ≠ a → q ≠ p →
        wp (rest q)
           (<[a := arg_array (<[i := f q x]> l)]>
              (<[q := chars (replicate N zero)]> h)) Q) →
  wp (calloc_chars N ≫= λ q, update_arg p i (f q) ≫= λ _, rest q) h Q.
Proof.
  intros Hp Ha Hi Hrest. apply wp_bind. apply wp_alloc. intros q Hq.
  assert (q ≠ a) by (intros ->; by rewrite Hq in Ha).
  assert (q ≠ p) by (intros ->; by rewrite Hq in Hp).
  apply wp_bind. eapply wp_update_arg.
  - by rewrite lookup_insert_ne.
  - by rewrite lookup_insert_ne.
  - done.
  - by apply Hrest.
Qed.

Lemma wp_copy_whole q s h (Q : unit → gmap positive block → Prop) :
  h !! q = Some (chars (replicate (String.length s + 1) zero)) →
  Q tt (<[q := chars (c_string s)]> h) →
  wp (memcpy q 0 (c_string s) (String.length s + 1)) h Q.
Proof.
  intros Hq HQ. eapply wp_memcpy; [done| | |].
  - rewrite length_replicate. lia.
  - rewrite length_c_string. lia.
  - rewrite <-length_c_string, copy_whole. done.
Qed.

Lemma list_insert_lookup_same {A} (l : list A) i x y :
  l !! i = Some x → <[i := y]> l !! i = Some y.
Proof. intros Hi. apply list_lookup_insert_eq. by eapply lookup_lt_Some. Qed.

Ltac heap_lookup :=
  repeat first
    [ rewrite lookup_insert_eq
    | rewrite lookup_insert_ne by (done || congruence) ];
  try done.

Lemma ParseChannelArgs_loop_spec h0 p a n obj :
  ∀ rest pop es h,
    parsed h0 h p a n pop es →
    (length pop + length rest ≤ n)%nat →
    Forall (λ kv, Get obj (VString kv.1) = kv.2) rest →
    wp (ParseChannelArgs_loop p obj ((λ kv, VString kv.1) <$> rest) (length pop)) h
       (λ completed h',
          ∃ pop' es', parsed h0 h' p a n pop' es' ∧
            if completed : bool
            then Forall (λ kv, accepted kv = true) rest ∧
                 es' = es ++ (encoded <$> rest) ∧
                 length pop' = (length pop + length rest)%nat
            else Exists (λ kv, accepted kv = false) rest ∧
                 (length pop' < length pop + length rest)%nat).
Proof.
  induction rest as [|[k v] rest IH]; intros pop es h Hparsed Hlen Hget.
  { apply wp_ret. exists pop, es. rewrite app_nil_r, Nat.add_0_r. done. }
  apply Forall_cons in Hget as [Hv Hget]. simpl in Hlen. cbn [fst snd] in Hv.
  cbn [fmap list_fmap ParseChannelArgs_loop Utf8String fst].
  rewrite Hv.
  pose proof Hparsed as [Hp Ha _ _ _ _].
  pose proof (zero_tail_lookup pop n ltac:(lia)) as Hzero.
  assert (∀ x e h',
    NoDup (arg_blocks x) →
    (∀ i, i ∈ arg_blocks x → h !! i = None) →
    holds h' x e →
    h' !! a = Some (arg_array (<[length pop := x]>
                      (pop ++ replicate (n - length pop) zero_arg))) →
    (∀ i, i ≠ a → i ∉ arg_blocks x → h' !! i = h !! i) →
    e = encoded (k, v) → accepted (k, v) = true →
    wp (ParseChannelArgs_loop p obj ((λ kv, VString kv.1) <$> rest)
          (S (length pop))) h'
       (λ completed h'',
          ∃ pop' es', parsed h0 h'' p a n pop' es' ∧
            if completed : bool
            then Forall (λ kv, accepted kv = true) ((k, v) :: rest) ∧
                 es' = es ++ (encoded <$> (k, v) :: rest) ∧
                 length pop' = (length pop + length ((k, v) :: rest))%nat
            else Exists (λ kv, accepted kv = false) ((k, v) :: rest) ∧
                 (length pop' < length pop + length ((k, v) :: rest))%nat))
    as Hnext.
  { intros x e h' Hndx Hfree Hx Ha' Hagree -> Hacc.
    assert (parsed h0 h' p a n (pop ++ [x]) (es ++ [encoded (k, v)])) as Hparsed'.
    { eapply parsed_extend; eauto. lia. }
    specialize (IH _ _ _ Hparsed').
    rewrite length_app in IH. simpl in IH.
    replace (length pop + 1)%nat with (S (length pop)) in IH by lia.
    eapply wp_mono; [apply IH; [lia|done]|].
    intros completed h'' (pop' & es' & Hparsed'' & Hpost).
    exists pop', es'. split; [done|].
    destruct completed.
    - destruct Hpost as (Hall & -> & Hlen').
      split; [by constructor|]. split; [by rewrite <-(assoc_L (++))|].
      simpl. lia.
    - destruct Hpost as [Hex Hlen']. split; [by apply Exists_cons_tl|].
      simpl. lia. }
  destruct (IsInt32 v) eqn:Hint.
  { (* an integer value *)
    apply wp_bind. apply wp_bind.
    eapply wp_update_arg; [done|done|done|].
    apply wp_bind. eapply wp_update_arg; [heap_lookup|heap_lookup| |].
    { by eapply list_insert_lookup_same. }
    apply wp_ret. rewrite insert_insert_eq, list_insert_insert_eq.
    eapply wp_calloc_update; [heap_lookup|heap_lookup| |].
    { by eapply list_insert_lookup_same. }
    intros q Hq Hqa Hqp. rewrite list_insert_insert_eq.
    apply wp_bind. eapply wp_copy_whole; [heap_lookup|].
    rewrite lookup_insert_ne in Hq by done.
    eapply Hnext with
      (x := {| type := GRPC_ARG_INTEGER; key := Some q;
               value := value_integer (To_integer v) |})
      (e := encoded (k, v)).
    - unfold arg_blocks. simpl. apply NoDup_singleton.
    - unfold arg_blocks. simpl. intros i ->%list_elem_of_singleton. done.
    - exists q. simpl. split; [done|]. split; [heap_lookup|].
      unfold encoded. simpl. rewrite Hint. done.
    - heap_lookup.
    - unfold arg_blocks. simpl. intros i Hia Hiq.
      assert (i ≠ q) by set_solver. heap_lookup.
    - done.
    - unfold accepted. simpl. by rewrite Hint. }
  destruct v as [| | | |s| | | | | |]; cbn [IsString Utf8String];
    try (apply wp_bind; apply wp_ret; cbn beta iota; apply wp_ret;
         exists pop, es; split; [done|]; split; [|simpl; lia];
         apply Exists_cons_hd;
         unfold accepted; cbn [fst snd IsString]; by rewrite ?Hint).
  (* a string value *)
  apply wp_bind. apply wp_bind.
  eapply wp_update_arg; [done|done|done|].
  apply wp_bind.
  destruct (decide (strcmp (c_string k)
                      (c_string GRPC_ARG_PRIMARY_USER_AGENT_STRING) = 0))
    as [Hua|Hua].
  - (* under the user agent key *)
    eapply wp_calloc_update; [heap_lookup|heap_lookup| |].
    { by eapply list_insert_lookup_same. }
    intros q Hq Hqa Hqp. rewrite list_insert_insert_eq.
    pose proof (copy_user_agent (list_ascii_of_string s)
                  (c_string grpc_node_user_agent)) as Hcopy.
    cbv zeta in Hcopy. destruct Hcopy as (Hlen1 & Hlen2 & Hcs3).
    rewrite length_list_ascii_of_string in Hlen1, Hlen2, Hcs3.
    change (c_string s) with (list_ascii_of_string s ++ [zero]).
    apply wp_bind. eapply wp_memcpy; [heap_lookup| | |].
    { rewrite length_replicate. lia. }
    { rewrite length_app, length_list_ascii_of_string. lia. }
    apply wp_bind. unfold store_char. eapply wp_memcpy; [heap_lookup| | |].
    { rewrite Hlen1. lia. }
    { done. }
    eapply wp_memcpy; [heap_lookup| | |].
    { rewrite Hlen2. lia. }
    { done. }
    rewrite Hcs3. rewrite !insert_insert_eq.
    apply wp_ret.
    rewrite lookup_insert_ne in Hq by done.
    eapply wp_calloc_update; [heap_lookup|heap_lookup| |].
    { by eapply list_insert_lookup_same. }
    intros q' Hq' Hq'a Hq'p. rewrite list_insert_insert_eq.
    assert (q' ≠ q) by (intros ->; by rewrite lookup_insert_eq in Hq').
    rewrite !lookup_insert_ne in Hq' by done.
    apply wp_bind. eapply wp_copy_whole; [heap_lookup|].
    eapply Hnext with
      (x := {| type := GRPC_ARG_STRING; key := Some q';
               value := value_string (Some q) |})
      (e := encoded (k, VString s)).
    + unfold arg_blocks. simpl. apply NoDup_cons. split; [set_solver|].
      apply NoDup_singleton.
    + unfold arg_blocks. simpl. intros i Hi.
      assert (i = q' ∨ i = q) as [->| ->] by set_solver; done.
    + exists q'. simpl. split; [done|]. split; [heap_lookup|].
      unfold encoded, is_user_agent_key. simpl.
      rewrite bool_decide_eq_true_2 by done. split; [done|].
      exists q. split; [done|]. heap_lookup.
    + heap_lookup.
    + unfold arg_blocks. simpl. intros i Hia Hiq.
      assert (i ≠ q ∧ i ≠ q') as [??] by set_solver. heap_lookup.
    + done.
    + done.
  - (* under another key *)
    eapply wp_calloc_update; [heap_lookup|heap_lookup| |].
    { by eapply list_insert_lookup_same. }
    intros q Hq Hqa Hqp. rewrite list_insert_insert_eq.
    eapply wp_copy_whole; [heap_lookup|].
    apply wp_ret.
    rewrite lookup_insert_ne in Hq by done.
    eapply wp_calloc_update; [heap_lookup|heap_lookup| |].
    { by eapply list_insert_lookup_same. }
    intros q' Hq' Hq'a Hq'p. rewrite list_insert_insert_eq.
    assert (q' ≠ q) by (intros ->; by rewrite lookup_insert_eq in Hq').
    rewrite !lookup_insert_ne in Hq' by done.
    apply wp_bind. eapply wp_copy_whole; [heap_lookup|].
    eapply Hnext with
      (x := {| type := GRPC_ARG_STRING; key := Some q';
               value := value_string (Some q) |})
      (e := encoded (k, VString s)).
    + unfold arg_blocks. simpl. apply NoDup_cons. split; [set_solver|].
      apply NoDup_singleton.
    + unfold arg_blocks. simpl. intros i Hi.
      assert (i = q' ∨ i = q) as [->| ->] by set_solver; done.
    + exists q'. simpl. split; [done|]. split; [heap_lookup|].
      unfold encoded, is_user_agent_key. simpl.
      rewrite bool_decide_eq_false_2 by done. split; [done|].
      exists q. split; [done|]. heap_lookup.
    + heap_lookup.
    + unfold arg_blocks. simpl. intros i Hia Hiq.
      assert (i ≠ q ∧ i ≠ q') as [??] by set_solver. heap_lookup.
    + done.
    + done.
Qed.

Lemma wp_memcpy_whole q src h (Q : unit → gmap positive block → Prop) :
  h !! q = Some (chars (replicate (length src) zero)) →
  Q tt (<[q := chars src]> h) →
  wp (memcpy q 0 src (length src)) h Q.
Proof.
  intros Hq HQ. eapply wp_memcpy; [done| | |].
  - rewrite length_replicate. lia.
  - done.
  - by rewrite copy_whole.
Qed.

Lemma Get_own_property obj k v :
  NoDup (own_properties obj).*1 → (k, v) ∈ own_properties obj →
  Get obj (VString k) = v.
Proof. intros Hnd Hin. unfold Get. by erewrite lookup_property_NoDup. Qed.

(** The argument list right after the allocation of the array. *)
Lemma parsed_initial h0 h p a n :
  h0 !! p = None → h0 !! a = None → p ≠ a →
  h !! p = Some (channel_args_struct {| num_args := n; args := Some a |}) →
  h !! a = Some (arg_array (replicate n zero_arg)) →
  (∀ i, i ≠ p → i ≠ a → h !! i = h0 !! i) →
  parsed h0 h p a n [] [].
Proof.
  intros Hp0 Ha0 Hpa Hp Ha Hagree. split; simpl.
  - done.
  - by rewrite Nat.sub_0_r.
  - lia.
  - constructor.
  - apply NoDup_cons. split; [set_solver|]. apply NoDup_singleton.
  - apply map_eq. intros i. rewrite !lookup_delete.
    repeat case_decide; simplify_eq; try done. by apply Hagree.
Qed.

(** The user agent entry is stored in the last slot. *)
Lemma PopulateUserAgentChannelArg_spec h0 h p a n pop es :
  parsed h0 h p a n pop es → n = S (length pop) →
  wp (PopulateUserAgentChannelArg (Some a, length pop)) h
     (λ _ h', ∃ x, parsed h0 h' p a n (pop ++ [x]) (es ++ [user_agent_entry])).
Proof.
  intros Hparsed Hn.
  pose proof Hparsed as [Hp Ha _ _ _ _].
  pose proof (zero_tail_lookup pop n ltac:(lia)) as Hzero.
  unfold PopulateUserAgentChannelArg. cbv zeta. cbn [fst snd].
  apply wp_bind. apply wp_alloc. intros k Hk.
  assert (k ≠ a) by (intros ->; by rewrite Hk in Ha).
  assert (k ≠ p) by (intros ->; by rewrite Hk in Hp).
  apply wp_bind. eapply wp_update_elem; [heap_lookup|done|].
  apply wp_bind. eapply wp_memcpy_whole; [heap_lookup|].
  apply wp_bind. eapply wp_update_elem; [heap_lookup| |].
  { by eapply list_insert_lookup_same. }
  rewrite list_insert_insert_eq.
  apply wp_bind. apply wp_alloc. intros v Hv.
  assert (v ≠ k) by (intros ->; by rewrite lookup_insert_ne, lookup_insert_eq in Hv).
  assert (v ≠ a) by (intros ->; by rewrite lookup_insert_eq in Hv).
  rewrite !lookup_insert_ne in Hv by done.
  assert (v ≠ p) by (intros ->; by rewrite Hv in Hp).
  apply wp_bind. eapply wp_update_elem; [heap_lookup| |].
  { by eapply list_insert_lookup_same. }
  rewrite list_insert_insert_eq.
  eapply wp_memcpy_whole; [heap_lookup|].
  exists {| type := GRPC_ARG_STRING; key := Some k; value := value_string (Some v) |}.
  eapply parsed_extend; [done|lia| | | | |].
  - unfold arg_blocks. simpl. apply NoDup_cons. split; [set_solver|].
    apply NoDup_singleton.
  - unfold arg_blocks. simpl. intros i Hi.
    assert (i = k ∨ i = v) as [->| ->] by set_solver; done.
  - exists k. simpl. split; [done|]. split; [heap_lookup|]. split; [done|].
    exists v. split; [done|]. heap_lookup.
  - heap_lookup.
  - unfold arg_blocks. simpl. intros i Hia Hi.
    assert (i ≠ k ∧ i ≠ v) as [??] by set_solver. heap_lookup.
Qed.

(** What [ParseChannelArgs] does, for every input: on a value that is
    not an object it hands back no list; on an object it hands back a
    list that owns exactly the blocks allocated for it, complete when
    every value is accepted and cut at the first value that is not. *)
Lemma ParseChannelArgs_spec args_val h0 :
  let obj := options_object args_val in
  let props := own_properties obj in
  NoDup props.*1 →
  wp (ParseChannelArgs args_val) h0
     (λ r h,
        if IsObject obj then
          ∃ p a n pop es,
            r.2 = Some p ∧ parsed h0 h p a n pop es ∧
            if r.1 : bool
            then Forall (λ kv, accepted kv = true) props ∧
                 es = encoded_list props ∧ length pop = n
            else Exists (λ kv, accepted kv = false) props ∧ (length pop < n)%nat
        else r = (false, None) ∧ h = h0).
Proof.
  intros obj props Hnd. unfold ParseChannelArgs.
  change (if IsUndefined args_val || IsNull args_val then VObject [] else args_val)
    with obj.
  destruct (IsObject obj) eqn:Hobj; cbn [negb]; [|by apply wp_ret].
  apply wp_bind. apply wp_alloc. intros p Hp0.
  apply wp_bind. eapply wp_store_num_args; [heap_lookup|]. cbn [args].
  rewrite insert_insert_eq.
  unfold GetOwnPropertyNames, HasOwnProperty. fold props.
  rewrite length_fmap.
  set (has_user_agent_arg := bool_decide (GRPC_ARG_PRIMARY_USER_AGENT_STRING ∈ props.*1)).
  set (n := if has_user_agent_arg then length props else (length props + 1)%nat).
  apply wp_bind.
  apply (wp_mono _ _ (λ _ h, h = <[p := channel_args_struct
                                          {| num_args := n; args := NULL |}]> h0)).
  { unfold n. destruct has_user_agent_arg; cbn [negb].
    - by apply wp_ret.
    - apply wp_bind. eapply wp_load_channel_args; [heap_lookup|].
      eapply wp_store_num_args; [heap_lookup|]. cbn [num_args args].
      by rewrite insert_insert_eq. }
  intros _ h ->.
  apply wp_bind. eapply wp_load_channel_args; [heap_lookup|]. cbn [num_args].
  apply wp_bind. apply wp_alloc. intros a Ha.
  assert (a ≠ p) by (intros ->; by rewrite lookup_insert_eq in Ha).
  rewrite lookup_insert_ne in Ha by done.
  apply wp_bind. eapply wp_store_args; [heap_lookup|]. cbn [num_args].
  match goal with |- wp _ ?h _ => set (h1 := h) end.
  assert (parsed h0 h1 p a n [] []) as Hparsed.
  { apply parsed_initial; unfold h1; try done; [heap_lookup..|].
    intros i ??. heap_lookup. }
  apply wp_bind.
  eapply wp_mono.
  { apply (ParseChannelArgs_loop_spec h0 p a n obj props [] [] h1 Hparsed).
    - unfold n. simpl. destruct has_user_agent_arg; lia.
    - apply Forall_forall. intros [k v] Hin. by apply Get_own_property. }
  intros completed h2 (pop & es & Hparsed2 & Hpost).
  destruct completed.
  - destruct Hpost as (Hacc & -> & Hlen). simpl in Hlen.
    apply wp_bind.
    unfold encoded_list. fold has_user_agent_arg.
    destruct has_user_agent_arg eqn:Hua; cbn [negb].
    + apply wp_ret. apply wp_ret. exists p, a, n, pop, (encoded <$> props).
      simpl. rewrite app_nil_r. done.
    + pose proof Hparsed2 as [Hp2 _ _ _ _ _].
      apply wp_bind. eapply wp_load_channel_args; [done|]. cbn [num_args args].
      replace (n - 1)%nat with (length pop) by (unfold n; lia).
      eapply wp_mono.
      { eapply PopulateUserAgentChannelArg_spec; [done|]. unfold n. lia. }
      intros _ h3 (x & Hparsed3). apply wp_ret.
      exists p, a, n, (pop ++ [x]), ((encoded <$> props) ++ [user_agent_entry]).
      simpl. split; [done|]. split; [done|]. split; [done|]. split; [done|].
      rewrite length_app. simpl. unfold n. lia.
  - destruct Hpost as [Hex Hlen]. simpl in Hlen.
    apply wp_ret. exists p, a, n, pop, es. simpl.
    split; [done|]. split; [done|]. split; [done|].
    unfold n. destruct has_user_agent_arg; lia.
Qed.

(** *** Reading an argument list *)

Lemma read_args_spec h p a n pop :
  h !! p = Some (channel_args_struct {| num_args := n; args := Some a |}) →
  h !! a = Some (arg_array pop) →
  ∀ rest es seen, pop = seen ++ rest → Forall2 (holds h) rest es →
    wp (read_args p (length seen) (length rest)) h (λ r h', r = es ∧ h' = h).
Proof.
  intros Hp Ha. induction rest as [|x rest IH]; intros es seen -> Hholds.
  - apply Forall2_nil_inv_l in Hholds as ->. by apply wp_ret.
  - apply Forall2_cons_inv_l in Hholds as (e & es' & Hx & Hholds & ->).
    simpl. apply wp_bind. eapply wp_load_arg; [done|done| |].
    { by apply list_lookup_middle. }
    apply wp_bind. unfold read_arg.
    destruct Hx as (k & Hk & Hhk & Hv). rewrite Hk.
    apply wp_bind. eapply wp_read_chars; [done|].
    specialize (IH es' (seen ++ [x])). rewrite <-(assoc_L (++)) in IH.
    specialize (IH eq_refl Hholds). rewrite length_app in IH. simpl in IH.
    replace (length seen + 1)%nat with (S (length seen)) in IH by lia.
    destruct e as [kcs [vcs|i]]; simpl in Hv.
    + destruct Hv as (-> & v & -> & Hhv).
      apply wp_bind. eapply wp_read_chars; [done|]. apply wp_ret.
      apply wp_bind. eapply wp_mono; [exact IH|].
      intros r h' [-> ->]. by apply wp_ret.
    + destruct Hv as (-> & ->). apply wp_ret.
      apply wp_bind. eapply wp_mono; [exact IH|].
      intros r h' [-> ->]. by apply wp_ret.
Qed.

(** The gRPC core finds in a complete list the contents that the
    invariant names, and reading changes nothing. *)
Lemma read_channel_args_parsed h0 h p a n pop es :
  parsed h0 h p a n pop es → length pop = n →
  read_channel_args (Some p) h = Some (es, h).
Proof.
  intros [Hp Ha _ Hholds _ _] Hlen.
  enough (wp (read_channel_args (Some p)) h (λ r h', r = es ∧ h' = h)) as Hwp.
  { destruct Hwp as (r & h' & Hrun & -> & ->). done. }
  rewrite Hlen, Nat.sub_diag in Ha. simpl in Ha. rewrite app_nil_r in Ha.
  unfold read_channel_args.
  apply wp_bind. eapply wp_load_channel_args; [done|]. cbn [num_args].
  rewrite <-Hlen.
  by apply (read_args_spec h p a n pop Hp Ha pop es []).
Qed.

(** *** The encoder, end to end *)

#[global] Instance c_string_inj : Inj (=) (=) c_string.
Proof.
  intros s s' [Heq _]%app_inj_tail.
  by rewrite <-(string_of_list_ascii_of_string s), Heq,
    string_of_list_ascii_of_string.
Qed.

Lemma list_ascii_of_string_app s s' :
  list_ascii_of_string (s +:+ s') = list_ascii_of_string s ++ list_ascii_of_string s'.
Proof. induction s as [|c s IH]; simpl; [done|]. by rewrite IH. Qed.

Lemma c_string_joined s u :
  c_string (s +:+ " " +:+ u) = list_ascii_of_string s ++ " "%char :: c_string u.
Proof.
  unfold c_string. rewrite !list_ascii_of_string_app.
  by rewrite <-!(assoc_L (++)).
Qed.

Lemma is_user_agent_key_primary :
  is_user_agent_key GRPC_ARG_PRIMARY_USER_AGENT_STRING = true.
Proof. reflexivity. Qed.

(** For keys without a NUL character [strcmp] tells the user agent key
    from every other key. *)
Lemma nat_of_ascii_inj x y : nat_of_ascii x = nat_of_ascii y → x = y.
Proof.
  intros Heq. by rewrite <-(ascii_nat_embedding x), Heq, ascii_nat_embedding.
Qed.

Lemma strcmp_c_string (a b : list ascii) :
  zero ∉ a → zero ∉ b → strcmp (a ++ [zero]) (b ++ [zero]) = 0 → a = b.
Proof.
  revert b. induction a as [|x a IH]; intros [|y b] Ha Hb; simpl.
  - done.
  - rewrite decide_False by set_solver. intros Hcmp.
    assert (nat_of_ascii y = nat_of_ascii zero) as ->%nat_of_ascii_inj
      by (simpl in *; lia).
    set_solver.
  - rewrite decide_False by set_solver. intros Hcmp.
    assert (nat_of_ascii x = nat_of_ascii zero) as ->%nat_of_ascii_inj
      by (simpl in *; lia).
    set_solver.
  - destruct (decide (x = y)) as [->|Hxy].
    + unfold is_nul. rewrite bool_decide_eq_false_2 by set_solver.
      intros Hcmp. f_equal. apply IH; [set_solver|set_solver|done].
    + intros Hcmp. exfalso. apply Hxy, nat_of_ascii_inj. lia.
Qed.

Lemma is_user_agent_key_nul_free k :
  zero ∉ list_ascii_of_string k →
  is_user_agent_key k = bool_decide (k = GRPC_ARG_PRIMARY_USER_AGENT_STRING).
Proof.
  intros Hk. unfold is_user_agent_key.
  apply bool_decide_ext. split.
  - intros Hcmp. apply strcmp_c_string in Hcmp; [|done|].
    + by rewrite <-(string_of_list_ascii_of_string k), Hcmp.
    + by apply (bool_decide_unpack _).
  - by intros ->.
Qed.

Lemma accepted_forallb props :
  forallb accepted props = true ↔ Forall (λ kv, accepted kv = true) props.
Proof. rewrite forallb_forall, Forall_forall. by setoid_rewrite list_elem_of_In. Qed.

Lemma not_accepted_forallb props :
  Exists (λ kv, accepted kv = false) props → forallb accepted props = false.
Proof.
  intros Hex. apply not_true_is_false. rewrite accepted_forallb.
  intros Hall. apply Exists_exists in Hex as (kv & Hin & Hkv).
  rewrite Forall_forall in Hall. specialize (Hall kv Hin). congruence.
Qed.

(** Every run of [ParseChannelArgs] is defined.  It succeeds exactly on
    an object whose values are all accepted; the list it leaves, whole
    or partial, is given back in full by [DeallocateChannelArgs], and a
    whole list reads as [encoded_list]. *)
Lemma ParseChannelArgs_outcome args_val h :
  let obj := options_object args_val in
  let props := own_properties obj in
  NoDup props.*1 →
  ∃ r h',
    ParseChannelArgs args_val h = Some (r, h') ∧
    r.1 = IsObject obj && forallb accepted props ∧
    (IsObject obj = true → is_Some r.2) ∧
    DeallocateChannelArgs r.2 h' = Some (tt, h) ∧
    (r.1 = true → read_channel_args r.2 h' = Some (encoded_list props, h')).
Proof.
  intros obj props Hnd.
  destruct (ParseChannelArgs_spec args_val h Hnd) as ([ok ptr] & h' & Hrun & Hpost).
  exists (ok, ptr), h'. split; [done|]. fold obj props in Hpost. simpl in *.
  destruct (IsObject obj).
  - destruct Hpost as (p & a & n & pop & es & -> & Hparsed & Hpost).
    simpl. destruct ok.
    + destruct Hpost as (Hacc & -> & Hlen).
      split; [symmetry; by apply accepted_forallb|]. split; [eauto|].
      split; [by eapply DeallocateChannelArgs_parsed|].
      intros _. by eapply read_channel_args_parsed.
    + destruct Hpost as [Hex _].
      split; [symmetry; by apply not_accepted_forallb|]. split; [eauto|].
      split; [by eapply DeallocateChannelArgs_parsed|]. done.
  - destruct Hpost as [[= -> ->] ->]. done.
Qed.

Lemma encoded_list_keys props :
  (encoded_list props).*1
  = (c_string <$> props.*1) ++
    (if bool_decide (GRPC_ARG_PRIMARY_USER_AGENT_STRING ∈ props.*1) then []
     else [c_string GRPC_ARG_PRIMARY_USER_AGENT_STRING]).
Proof.
  unfold encoded_list. rewrite fmap_app. f_equal.
  - rewrite <-!list_fmap_compose. by apply list_fmap_ext.
  - by case_bool_decide.
Qed.

Lemma encoded_list_NoDup props : NoDup props.*1 → NoDup (encoded_list props).*1.
Proof.
  intros Hnd. rewrite encoded_list_keys. apply NoDup_app.
  split; [by apply (NoDup_fmap_2 _)|]. split.
  - case_bool_decide as Hua; [set_solver|].
    intros cs (k & -> & Hk)%list_elem_of_fmap ->%list_elem_of_singleton%(inj _).
    done.
  - case_bool_decide; [constructor|apply NoDup_singleton].
Qed.

Lemma encoded_list_length props :
  length (encoded_list props)
  = (length props +
     if bool_decide (GRPC_ARG_PRIMARY_USER_AGENT_STRING ∈ props.*1) then 0 else 1)%nat.
Proof.
  unfold encoded_list. rewrite length_app, length_fmap.
  by case_bool_decide.
Qed.

(** C1. For every configuration object (its property names distinct)
    that holds a value which is neither a string nor an integer,
    [ParseChannelArgs] fails and leaves a partially populated list: the
    heap is the initial heap and the blocks of the list, of which the
    first [length pop] entries are populated and the others, at least
    one, are zero with a null key.  [DeallocateChannelArgs] on that list
    runs without an invalid [free] and ends in the initial heap: every
    block of a populated entry is released, and nothing else. *)
Theorem ParseChannelArgs_failure_is_released props k v h :
  NoDup props.*1 → (k, v) ∈ props →
  IsString v = false → is_integer v = false →
  ∃ p a n pop es h',
    ParseChannelArgs (VObject props) h = Some ((false, Some p), h') ∧
    parsed h h' p a n pop es ∧ (length pop < n)%nat ∧
    DeallocateChannelArgs (Some p) h' = Some (tt, h).
Proof.
  intros Hnd Hin Hstr Hint.
  destruct (ParseChannelArgs_spec (VObject props) h Hnd)
    as ([ok ptr] & h' & Hrun & Hpost).
  simpl in Hpost. destruct Hpost as (p & a & n & pop & es & -> & Hparsed & Hpost).
  destruct ok.
  - destruct Hpost as (Hacc & _). rewrite Forall_forall in Hacc.
    specialize (Hacc _ Hin). unfold accepted in Hacc. simpl in Hacc.
    rewrite Hstr, orb_false_r in Hacc.
    destruct v as [| | |[]| | | | | | |]; simpl in *; done.
  - destruct Hpost as [_ Hlen]. exists p, a, n, pop, es, h'.
    split; [done|]. split; [done|]. split; [done|].
    by eapply DeallocateChannelArgs_parsed.
Qed.

(** C2, as amended.  For every configuration object (its property names
    distinct) whose values are all strings or integers of the signed
    32-bit range, [ParseChannelArgs] succeeds; in the list it builds no
    key occurs twice, the length is the number of user entries, plus
    one if no user entry uses the primary user agent key, and every
    user key is there with its value: an integer as it is, a string as
    it is unless the key is the user agent key (as [strcmp] compares),
    under which the string is followed by one space and
    [grpc_node_user_agent]. *)
Theorem ParseChannelArgs_encodes_every_entry props h :
  NoDup props.*1 →
  Forall (λ kv, IsInt32 kv.2 = true ∨ IsString kv.2 = true) props →
  ∃ p h' out,
    ParseChannelArgs (VObject props) h = Some ((true, Some p), h') ∧
    read_channel_args (Some p) h' = Some (out, h') ∧
    NoDup out.*1 ∧
    length out
    = (length props +
       if bool_decide (GRPC_ARG_PRIMARY_USER_AGENT_STRING ∈ props.*1)
       then 0 else 1)%nat ∧
    ∀ k v, (k, v) ∈ props →
      ∃ c, (c_string k, c) ∈ out ∧
           (IsInt32 v = true → c = integer_arg (To_integer v)) ∧
           (∀ s, v = VString s → is_user_agent_key k = false →
                 c = string_arg (c_string s)) ∧
           (∀ s, v = VString s → is_user_agent_key k = true →
                 c = string_arg (c_string (s +:+ " " +:+ grpc_node_user_agent))).
Proof.
  intros Hnd Hvals.
  destruct (ParseChannelArgs_outcome (VObject props) h Hnd)
    as ([ok ptr] & h' & Hrun & Hok & Hptr & _ & Hread).
  simpl in *.
  assert (forallb accepted props = true) as Hacc.
  { apply accepted_forallb. eapply Forall_impl; [exact Hvals|].
    intros [k v] [Hv|Hv]; unfold accepted; simpl in *; rewrite Hv;
      [done|apply orb_true_r]. }
  rewrite Hacc in Hok. subst ok. destruct (Hptr eq_refl) as [p ->].
  exists p, h', (encoded_list props).
  split; [done|]. split; [by apply Hread|].
  split; [by apply encoded_list_NoDup|]. split; [apply encoded_list_length|].
  intros k v Hin. exists (encoded (k, v)).2. split.
  - unfold encoded_list. apply elem_of_app. left.
    apply list_elem_of_fmap. by exists (k, v).
  - unfold encoded. simpl. split; [|split].
    + by intros ->.
    + intros s -> Hkey. rewrite Hkey. done.
    + intros s -> Hkey. rewrite Hkey. simpl. by rewrite c_string_joined.
Qed.

(** C3. A pass over the options (null and undefined standing for the
    empty object, property names distinct) succeeds exactly when the
    options are an object whose values are all accepted.  In every
    successful pass the list that the gRPC core reads holds the primary
    user agent as follows.  If the user gave the key with a string
    value, the value stored under the key is the C string of the user's
    string, one space and [grpc_node_user_agent], and no entry is
    added.  If the user did not give the key, the list is the user's
    entries followed by one more entry: the key with the C string of
    [grpc_node_user_agent].  In both cases no key occurs twice, so that
    entry is the only one under the key. *)
Theorem ParseChannelArgs_user_agent args_val h :
  let props := own_properties (options_object args_val) in
  NoDup props.*1 →
  (options_accepted args_val ↔
   ∃ p h', ParseChannelArgs args_val h = Some ((true, Some p), h')) ∧
  ∀ p h',
    ParseChannelArgs args_val h = Some ((true, Some p), h') →
    ∃ out,
      read_channel_args (Some p) h' = Some (out, h') ∧
      NoDup out.*1 ∧
      (∀ s, (GRPC_ARG_PRIMARY_USER_AGENT_STRING, VString s) ∈ props →
            (c_string GRPC_ARG_PRIMARY_USER_AGENT_STRING,
             string_arg (c_string (s +:+ " " +:+ grpc_node_user_agent))) ∈ out ∧
            length out = length props) ∧
      (GRPC_ARG_PRIMARY_USER_AGENT_STRING ∉ props.*1 →
         out = (encoded <$> props) ++
               [(c_string GRPC_ARG_PRIMARY_USER_AGENT_STRING,
                 string_arg (c_string grpc_node_user_agent))]).
Proof.
  intros props Hnd.
  destruct (ParseChannelArgs_outcome args_val h Hnd)
    as ([ok ptr] & h'' & Hrun' & Hok & Hptr & _ & Hread).
  cbn [fst snd] in *. fold props in Hok, Hread. split.
  { unfold options_accepted. fold props. split.
    - intros [Hobj Hacc]. rewrite Hobj, Hacc in Hok. cbn in Hok. subst ok.
      destruct (Hptr Hobj) as [p ->]. eauto.
    - intros (p & h' & Hrun). rewrite Hrun in Hrun'. injection Hrun' as <- <- <-.
      symmetry in Hok. by apply andb_true_iff in Hok. }
  intros p h' Hrun.
  rewrite Hrun in Hrun'. injection Hrun' as <- <- <-.
  exists (encoded_list props). split; [by apply Hread|].
  split; [by apply encoded_list_NoDup|]. split.
  - intros s Hin. split.
    + unfold encoded_list. apply elem_of_app. left.
      apply list_elem_of_fmap. exists (GRPC_ARG_PRIMARY_USER_AGENT_STRING, VString s).
      split; [|done]. unfold encoded. simpl.
      by rewrite c_string_joined.
    + rewrite encoded_list_length, bool_decide_eq_true_2; [lia|].
      apply list_elem_of_fmap. by exists (GRPC_ARG_PRIMARY_USER_AGENT_STRING, VString s).
  - intros Hua. unfold encoded_list. by rewrite bool_decide_eq_false_2.
Qed.

(** ** The methods of the wrapper *)

Lemma JS_bind_eq {A B} (m : JS A) (f : A → JS B) w a w1 :
  m w = Some (a, w1) → (m ≫= f) w = f a w1.
Proof. intros Hm. unfold mbind, JS_bind. by rewrite Hm. Qed.

Lemma Unwrap_eq obj channel w :
  channels w !! obj = Some channel →
  Unwrap (VChannel obj) w = Some ((obj, channel), w).
Proof. intros Hobj. unfold Unwrap. by rewrite Hobj. Qed.

Lemma world_eta w :
  {| heap := heap w; channels := channels w; log := log w |} = w.
Proof. by destruct w. Qed.

(** [Close] on a wrapped channel: the handle, if there is one, is
    destroyed once and the pointer is set to null. *)
Lemma Close_eq info obj channel w :
  This info = VChannel obj → channels w !! obj = Some channel →
  Close info w
  = Some (Return VUndefined,
          match wrapped_channel channel with
          | Some c =>
              {| heap := heap w;
                 channels := <[obj := {| wrapped_channel := NULL |}]> (channels w);
                 log := log w ++ [grpc_channel_destroy c] |}
          | None => w
          end).
Proof.
  intros Hthis Hobj. unfold Close. rewrite Hthis. cbn [HasInstance negb].
  erewrite JS_bind_eq by (by apply Unwrap_eq).
  destruct channel as [[c|]]; reflexivity.
Qed.

Lemma Channel_destructor_eq obj channel w :
  channels w !! obj = Some channel →
  Channel_destructor obj w
  = Some (tt, {| heap := heap w; channels := delete obj (channels w);
                 log := log w ++
                        match wrapped_channel channel with
                        | Some c => [grpc_channel_destroy c]
                        | None => []
                        end |}).
Proof.
  intros Hobj. unfold Channel_destructor.
  erewrite JS_bind_eq by (by apply Unwrap_eq).
  destruct channel as [[c|]]; cbn; [done|]. by rewrite app_nil_r.
Qed.

Lemma keeps_closed_mret {A} (a : A) : keeps_closed (mret a).
Proof. intros obj w a' w' Hclosed [= <- <-]. done. Qed.

Lemma keeps_closed_bind {A B} (m : JS A) (f : A → JS B) :
  keeps_closed m → (∀ a, keeps_closed (f a)) → keeps_closed (m ≫= f).
Proof.
  intros Hm Hf obj w b w' Hclosed Hrun. unfold mbind, JS_bind in Hrun.
  destruct (m w) as [[a w1]|] eqn:Hmw; [|done].
  eapply Hf; [|done]. by eapply Hm.
Qed.

Lemma keeps_closed_lift {A} (m : C A) : keeps_closed (lift m).
Proof.
  intros obj w a w' Hclosed Hrun. unfold lift in Hrun.
  destruct (m (heap w)) as [[a' h']|]; [|done]. by injection Hrun as _ <-.
Qed.

Lemma keeps_closed_call_core c : keeps_closed (call_core c).
Proof. intros obj w a w' Hclosed [= _ <-]. done. Qed.

Lemma keeps_closed_get_log : keeps_closed get_log.
Proof. intros obj w a w' Hclosed [= _ <-]. done. Qed.

Lemma keeps_closed_Unwrap val : keeps_closed (Unwrap val).
Proof.
  intros obj w a w' Hclosed Hrun. unfold Unwrap in Hrun.
  repeat case_match; by simplify_eq.
Qed.

Lemma keeps_closed_Wrap channel : keeps_closed (Wrap channel).
Proof.
  intros obj w a w' Hclosed [= _ <-]. cbn. rewrite lookup_insert_ne; [done|].
  intros Heq. pose proof (is_fresh (dom (channels w))) as Hnot.
  rewrite Heq in Hnot. apply Hnot, elem_of_dom. eauto.
Qed.

Lemma keeps_closed_set_wrapped_channel obj' :
  keeps_closed (set_wrapped_channel obj' NULL).
Proof.
  intros obj w a w' Hclosed [= _ <-]. cbn.
  destruct (decide (obj' = obj)) as [->|];
    [by rewrite lookup_insert_eq|by rewrite lookup_insert_ne].
Qed.

Ltac keeps_closed_step :=
  first
    [ apply keeps_closed_mret
    | apply keeps_closed_lift
    | apply keeps_closed_call_core
    | apply keeps_closed_get_log
    | apply keeps_closed_Unwrap
    | apply keeps_closed_Wrap
    | apply keeps_closed_set_wrapped_channel
    | apply keeps_closed_bind; [|intros ?]
    | match goal with
      | |- keeps_closed (if ?b then _ else _) => destruct b
      | |- keeps_closed (match ?x with _ => _ end) => destruct x
      end ].

Lemma keeps_closed_call_method m info : keeps_closed (call_method m info).
Proof.
  destruct m; cbn [call_method];
    unfold New, New_construct_call, Close, GetTarget, GetConnectivityState,
      WatchConnectivityState, CreateCall;
    repeat keeps_closed_step.
Qed.

Lemma keeps_closed_call_methods calls : keeps_closed (call_methods calls).
Proof.
  induction calls as [|[m info] calls IH]; cbn [call_methods].
  - apply keeps_closed_mret.
  - apply keeps_closed_bind; [apply keeps_closed_call_method|done].
Qed.

(** C4. After [close] has run on a channel, and after any sequence of
    later method calls on any receivers, each of [getTarget],
    [getConnectivityState], [watchConnectivityState] and [createCall]
    on that channel (the last two with arguments that pass their type
    checks; the host of [createCall] is not looked at before the state
    is) ends with the error of a closed channel, and the world is as
    before: no call into the gRPC core is made and nothing is
    allocated. *)
Theorem closed_channel_operations_fail info0 obj later w0 w :
  This info0 = VChannel obj →
  (Close info0;; call_methods later) w0 = Some (tt, w) →
  ∀ info, This info = VChannel obj →
    GetTarget info w
    = Some (ThrowError "Cannot call getTarget on a closed Channel", w) ∧
    GetConnectivityState info w
    = Some (ThrowError "Cannot call getConnectivityState on a closed Channel", w) ∧
    (IsUint32 (arg info 0) = true →
     IsNumber (arg info 1) || IsDate (arg info 1) = true →
     IsFunction (arg info 2) = true →
     WatchConnectivityState info w
     = Some (ThrowError "Cannot call watchConnectivityState on a closed Channel", w)) ∧
    (createCall_checks_pass info →
     CreateCall info w
     = Some (ThrowError "Cannot createCall with a closed Channel", w)).
Proof.
  intros Hthis0 Hrun info Hthis.
  assert (channels w !! obj = Some {| wrapped_channel := NULL |}) as Hclosed.
  { unfold mbind at 1, JS_bind in Hrun.
    destruct (Close info0 w0) as [[out w1]|] eqn:Hclose; [|done].
    eapply keeps_closed_call_methods; [|done].
    unfold Close in Hclose. rewrite Hthis0 in Hclose. cbn [HasInstance negb] in Hclose.
    unfold mbind, JS_bind, Unwrap in Hclose.
    destruct (channels w0 !! obj) as [[[c|]]|] eqn:Hobj; [| |done].
    - cbn in Hclose. injection Hclose as _ <-. cbn. by rewrite lookup_insert_eq.
    - cbn in Hclose. by injection Hclose as _ <-. }
  split; [|split; [|split]].
  - unfold GetTarget. rewrite Hthis. cbn [HasInstance negb].
    by erewrite JS_bind_eq by (by apply Unwrap_eq).
  - unfold GetConnectivityState. rewrite Hthis. cbn [HasInstance negb].
    by erewrite JS_bind_eq by (by apply Unwrap_eq).
  - intros Hstate Hdeadline Hcallback.
    unfold WatchConnectivityState. rewrite Hthis, Hstate, Hdeadline.
    cbn [HasInstance negb].
    destruct (arg info 2); try done.
    by erewrite JS_bind_eq by (by apply Unwrap_eq).
  - intros (Hmethod & Hdeadline & Hparent & Hflags).
    unfold CreateCall. rewrite Hthis, Hmethod, Hdeadline.
    cbn [HasInstance negb].
    destruct (Call_HasInstance (arg info 3)) eqn:Hcall; cbn [negb andb];
      [|cbn [orb] in Hparent; rewrite Hparent; cbn [negb]];
      (destruct (IsUint32 (arg info 4)) eqn:Huint; cbn [negb andb];
       [|cbn [orb] in Hflags; rewrite Hflags; cbn [negb]]);
      by erewrite JS_bind_eq by (by apply Unwrap_eq).
Qed.

Lemma Close_times_eq n info obj channel w :
  This info = VChannel obj → channels w !! obj = Some channel →
  Close_times n info w
  = Some (tt, match n with
              | O => w
              | S _ => match wrapped_channel channel with
                       | Some c =>
                           {| heap := heap w;
                              channels := <[obj := {| wrapped_channel := NULL |}]> (channels w);
                              log := log w ++ [grpc_channel_destroy c] |}
                       | None => w
                       end
              end).
Proof.
  intros Hthis. revert channel w. induction n as [|n IH]; intros channel w Hobj.
  { done. }
  cbn [Close_times]. erewrite JS_bind_eq by (by eapply Close_eq).
  destruct channel as [[c|]]; cbn [wrapped_channel].
  - erewrite IH; [|cbn; by rewrite lookup_insert_eq].
    destruct n; [done|]. done.
  - erewrite IH by done. destruct n; done.
Qed.

(** C5. [close] leaves a wrapped channel with a null handle, and a
    second [close] right after changes nothing at all; the handle is
    destroyed once if there was one and never otherwise.  The
    destructor after [close] makes no call into the gRPC core.  Any
    number of [close] calls followed by the destructor destroys the
    handle exactly once if the channel was open, and not at all if it
    was not. *)
Theorem Close_idempotent info obj channel w n :
  This info = VChannel obj → channels w !! obj = Some channel →
  let released :=
    match wrapped_channel channel with
    | Some c => [grpc_channel_destroy c]
    | None => []
    end in
  (∃ w1,
     Close info w = Some (Return VUndefined, w1) ∧
     Close info w1 = Some (Return VUndefined, w1) ∧
     channels w1 !! obj = Some {| wrapped_channel := NULL |} ∧
     log w1 = log w ++ released ∧
     ∃ w2, Channel_destructor obj w1 = Some (tt, w2) ∧ log w2 = log w1) ∧
  (∃ w', (Close_times n info;; Channel_destructor obj) w = Some (tt, w') ∧
         log w' = log w ++ released ∧
         channels w' = delete obj (channels w)).
Proof.
  intros Hthis Hobj released. split.
  - eexists. split; [by eapply Close_eq|].
    destruct channel as [[c|]]; cbn [wrapped_channel] in *.
    + split; [|split; [|split]].
      * rewrite (Close_eq _ obj {| wrapped_channel := NULL |});
          [done|done|cbn; by rewrite lookup_insert_eq].
      * cbn. by rewrite lookup_insert_eq.
      * done.
      * eexists. split.
        { eapply Channel_destructor_eq. cbn. by rewrite lookup_insert_eq. }
        cbn. by rewrite app_nil_r.
    + split; [|split; [|split]].
      * by rewrite (Close_eq _ obj {| wrapped_channel := NULL |}).
      * done.
      * unfold released. by rewrite app_nil_r.
      * eexists. split; [by eapply Channel_destructor_eq|].
        cbn. by rewrite app_nil_r.
  - erewrite JS_bind_eq by (by eapply Close_times_eq).
    destruct n as [|n].
    { erewrite Channel_destructor_eq by done. eexists. split; [done|]. done. }
    destruct channel as [[c|]]; cbn [wrapped_channel] in *.
    + erewrite Channel_destructor_eq by (cbn; by rewrite lookup_insert_eq).
      eexists. split; [done|]. cbn. rewrite app_nil_r.
      split; [done|]. by rewrite delete_insert_eq.
    + erewrite Channel_destructor_eq by done. eexists. split; [done|]. done.
Qed.

(** C10. On an open channel [getConnectivityState] always returns the
    state that the gRPC core reports, whatever the argument; the core
    is asked exactly once, with [try_to_connect] 1 if the first
    argument is the boolean [true] and 0 for every other value, a
    missing argument included. *)
Theorem GetConnectivityState_try_to_connect info obj c w :
  This info = VChannel obj →
  channels w !! obj = Some {| wrapped_channel := Some c |} →
  ∃ try_to_connect,
    let calls :=
      log w ++ [grpc_channel_check_connectivity_state c try_to_connect] in
    GetConnectivityState info w
    = Some (Return (VNumber (Integral (core_connectivity_state calls))),
            {| heap := heap w; channels := channels w; log := calls |}) ∧
    (try_to_connect = 1 ↔ arg info 0 = VBoolean true) ∧
    (try_to_connect = 0 ↔ arg info 0 ≠ VBoolean true).
Proof.
  intros Hthis Hobj. exists (Z.b2z (StrictEquals_True (arg info 0))).
  split; [|split].
  - unfold GetConnectivityState. rewrite Hthis. cbn [HasInstance negb].
    by erewrite JS_bind_eq by (by apply Unwrap_eq).
  - destruct (arg info 0) as [| |[]| | | | | | | |]; cbn; split; done.
  - destruct (arg info 0) as [| |[]| | | | | | | |]; cbn; split; done.
Qed.

(** C8, as amended.  When the first argument of
    [watchConnectivityState] is not an unsigned 32-bit integer, or the
    second is neither a number nor a date, or the third is not a
    function, the method ends with a type error and the world is as
    before: nothing is registered with the completion queue.  When the
    three tests pass on an open channel, the watch is registered with
    the first argument as the last observed state, whether or not it is
    the code of a connectivity state. *)
Theorem WatchConnectivityState_type_checks info w :
  (IsUint32 (arg info 0) = false ∨
   IsNumber (arg info 1) || IsDate (arg info 1) = false ∨
   IsFunction (arg info 2) = false →
   ∃ msg, WatchConnectivityState info w = Some (ThrowTypeError msg, w)) ∧
  (∀ obj c callback,
     This info = VChannel obj →
     channels w !! obj = Some {| wrapped_channel := Some c |} →
     IsUint32 (arg info 0) = true →
     IsNumber (arg info 1) || IsDate (arg info 1) = true →
     arg info 2 = VFunction callback →
     WatchConnectivityState info w
     = Some (Return VUndefined,
             {| heap := heap w; channels := channels w;
                log := log w ++
                       [grpc_channel_watch_connectivity_state c
                          (To_integer (arg info 0)) (To_double (arg info 1)) callback;
                        CompletionQueueNext] |})).
Proof.
  split.
  - intros Hbad. unfold WatchConnectivityState.
    destruct (HasInstance (This info)); cbn [negb]; [|by eexists].
    destruct (IsUint32 (arg info 0)); cbn [negb]; [|by eexists].
    destruct (IsNumber (arg info 1) || IsDate (arg info 1)); cbn [negb]; [|by eexists].
    destruct Hbad as [?|[?|Hfun]]; [done..|].
    destruct (arg info 2); try done; by eexists.
  - intros obj c callback Hthis Hobj Hstate Hdeadline Hcallback.
    unfold WatchConnectivityState.
    rewrite Hthis, Hstate, Hdeadline, Hcallback. cbn [HasInstance negb].
    erewrite JS_bind_eq by (by apply Unwrap_eq). cbn [snd wrapped_channel].
    erewrite JS_bind_eq by reflexivity.
    erewrite JS_bind_eq by reflexivity.
    cbn. by rewrite <-(assoc_L (++)).
Qed.

Lemma lift_eq {A} (m : C A) w a h' :
  m (heap w) = Some (a, h') →
  lift m w = Some (a, {| heap := h'; channels := channels w; log := log w |}).
Proof. intros Hm. unfold lift. by rewrite Hm. Qed.

(** [Channel::New] on a string, a ChannelCredentials instance and
    accepted options: one call into the gRPC core, whose result, null
    or not, is wrapped in a new object; the heap is as before. *)
Lemma New_construct_call_creates info target creds w :
  arg info 0 = VString target →
  arg info 1 = VChannelCredentials creds →
  NoDup (own_properties (options_object (arg info 2))).*1 →
  options_accepted (arg info 2) →
  let calls :=
    log w ++ [channel_create_call creds target
                (encoded_list (own_properties (options_object (arg info 2))))] in
  let obj := fresh (dom (channels w)) in
  New_construct_call info w
  = Some (Return (VChannel obj),
          {| heap := heap w;
             channels := <[obj := {| wrapped_channel := core_channel calls |}]> (channels w);
             log := calls |}).
Proof.
  intros Htarget Hcreds Hnd [Hobj Hacc] calls obj.
  destruct (ParseChannelArgs_outcome (arg info 2) (heap w) Hnd)
    as ([ok ptr] & h' & Hrun & Hok & _ & Hfree & Hread).
  cbn [fst snd] in *. rewrite Hobj, Hacc in Hok. cbn in Hok. subst ok.
  specialize (Hread eq_refl).
  unfold New_construct_call. rewrite Htarget, Hcreds.
  cbn [IsString negb Utf8String ChannelCredentials_HasInstance GetWrappedCredentials].
  erewrite JS_bind_eq by (by apply lift_eq). cbn [fst snd negb].
  erewrite JS_bind_eq by (by apply lift_eq).
  destruct creds as [creds|]; cbn [channel_create_call].
  all: erewrite JS_bind_eq by reflexivity.
  all: erewrite JS_bind_eq by reflexivity.
  all: erewrite JS_bind_eq by (apply lift_eq; exact Hfree).
  all: reflexivity.
Qed.

Lemma New_creates info target creds w :
  arg info 0 = VString target →
  arg info 1 = VChannelCredentials creds →
  NoDup (own_properties (options_object (arg info 2))).*1 →
  options_accepted (arg info 2) →
  let calls :=
    log w ++ [channel_create_call creds target
                (encoded_list (own_properties (options_object (arg info 2))))] in
  let obj := fresh (dom (channels w)) in
  New info w
  = Some (Return (VChannel obj),
          {| heap := heap w;
             channels := <[obj := {| wrapped_channel := core_channel calls |}]> (channels w);
             log := calls |}).
Proof.
  intros Htarget Hcreds Hnd Hacc. unfold New.
  destruct (IsConstructCall info).
  - by apply New_construct_call_creates.
  - exact (New_construct_call_creates _ target creds w Htarget Hcreds Hnd Hacc).
Qed.

(** Options that are not accepted: a type error, and the partial list
    is given back, so the world is as before. *)
Lemma New_rejects_options info target creds w :
  arg info 0 = VString target →
  arg info 1 = VChannelCredentials creds →
  NoDup (own_properties (options_object (arg info 2))).*1 →
  ¬ options_accepted (arg info 2) →
  New info w
  = Some (ThrowTypeError
            "Channel options must be an object with string keys and integer or string values",
          w).
Proof.
  intros Htarget Hcreds Hnd Hacc.
  assert (∀ info', arg info' 0 = VString target →
            arg info' 1 = VChannelCredentials creds →
            arg info' 2 = arg info 2 →
            New_construct_call info' w
            = Some (ThrowTypeError
                      "Channel options must be an object with string keys and integer or string values",
                    w)) as Hconstruct.
  { intros info' Htarget' Hcreds' Hoptions.
    destruct (ParseChannelArgs_outcome (arg info 2) (heap w) Hnd)
      as ([ok ptr] & h' & Hrun & Hok & _ & Hfree & _).
    cbn [fst snd] in *.
    assert (ok = false) as ->.
    { destruct ok; [|done]. exfalso. apply Hacc.
      symmetry in Hok. by apply andb_true_iff in Hok. }
    unfold New_construct_call. rewrite Htarget', Hcreds', Hoptions.
    cbn [IsString negb Utf8String ChannelCredentials_HasInstance].
    erewrite JS_bind_eq by (by apply lift_eq). cbn [fst snd negb].
    erewrite JS_bind_eq by (apply lift_eq; exact Hfree). cbn.
    by rewrite world_eta. }
  unfold New. destruct (IsConstructCall info); [by apply Hconstruct|].
  exact (Hconstruct _ Htarget Hcreds eq_refl).
Qed.

Lemma closed_operations info obj w :
  This info = VChannel obj →
  channels w !! obj = Some {| wrapped_channel := NULL |} →
  GetTarget info w
  = Some (ThrowError "Cannot call getTarget on a closed Channel", w) ∧
  GetConnectivityState info w
  = Some (ThrowError "Cannot call getConnectivityState on a closed Channel", w).
Proof.
  intros Hthis Hclosed. split.
  - unfold GetTarget. rewrite Hthis. cbn [HasInstance negb].
    by erewrite JS_bind_eq by (by apply Unwrap_eq).
  - unfold GetConnectivityState. rewrite Hthis. cbn [HasInstance negb].
    by erewrite JS_bind_eq by (by apply Unwrap_eq).
Qed.

(** C9, as amended.  [Channel::New] accepts as credentials a
    ChannelCredentials instance and nothing else: on any other second
    argument, null included, it ends with a type error and makes no
    call.  On a string target, an instance and accepted options it
    makes exactly one call into the gRPC core: the insecure channel
    creation when the pointer that the instance wraps is null, the
    secure channel creation with that pointer otherwise. *)
Theorem New_credentials info w :
  (ChannelCredentials_HasInstance (arg info 1) = false →
   ∃ msg, New info w = Some (ThrowTypeError msg, w)) ∧
  (∀ target creds,
     arg info 0 = VString target →
     arg info 1 = VChannelCredentials creds →
     NoDup (own_properties (options_object (arg info 2))).*1 →
     options_accepted (arg info 2) →
     ∃ obj w' channel_args,
       New info w = Some (Return (VChannel obj), w') ∧
       channels w !! obj = None ∧
       log w' = log w ++
                [match creds with
                 | None => grpc_insecure_channel_create (c_string target) channel_args
                 | Some creds =>
                     grpc_secure_channel_create creds (c_string target) channel_args
                 end] ∧
       channels w' = <[obj := {| wrapped_channel := core_channel (log w') |}]> (channels w) ∧
       heap w' = heap w).
Proof.
  split.
  - intros Hcreds. unfold New, New_construct_call.
    destruct (IsConstructCall info); cbn [arg arguments nth];
      fold (arg info 0); fold (arg info 1);
      destruct (arg info 0); cbn [IsString negb Utf8String];
      try (by eexists); rewrite Hcreds; by eexists.
  - intros target creds Htarget Hcreds Hnd Hacc.
    eexists _, _, _. split; [by eapply New_creates|].
    split; [apply not_elem_of_dom, is_fresh|].
    destruct creds; done.
Qed.

(** C6, as amended.  When the gRPC core returns a null handle for the
    channel creation, [Channel::New] does not fail: it gives the
    argument list back, wraps the null handle and returns the new
    object.  That object is closed from the start: its handle is null,
    and [getTarget] and [getConnectivityState] on it end with the error
    of a closed channel.  The other wrapped objects are as before, so
    the construction makes no open channel. *)
Theorem New_null_handle info target creds w :
  arg info 0 = VString target →
  arg info 1 = VChannelCredentials creds →
  NoDup (own_properties (options_object (arg info 2))).*1 →
  options_accepted (arg info 2) →
  core_channel
    (log w ++ [channel_create_call creds target
                 (encoded_list (own_properties (options_object (arg info 2))))])
  = NULL →
  ∃ obj w',
    New info w = Some (Return (VChannel obj), w') ∧
    channels w !! obj = None ∧
    channels w' = <[obj := {| wrapped_channel := NULL |}]> (channels w) ∧
    heap w' = heap w ∧
    ∀ info', This info' = VChannel obj →
      GetTarget info' w'
      = Some (ThrowError "Cannot call getTarget on a closed Channel", w') ∧
      GetConnectivityState info' w'
      = Some (ThrowError "Cannot call getConnectivityState on a closed Channel", w').
Proof.
  intros Htarget Hcreds Hnd Hacc Hnull.
  eexists _, _. split; [by eapply New_creates|].
  split; [apply not_elem_of_dom, is_fresh|].
  rewrite Hnull. cbn [channels heap].
  split; [done|]. split; [done|].
  intros info' Hthis. apply closed_operations with (obj := fresh (dom (channels w))).
  - done.
  - cbn. by rewrite lookup_insert_eq.
Qed.

Lemma CreateCall_open info obj c w :
  This info = VChannel obj →
  channels w !! obj = Some {| wrapped_channel := Some c |} →
  createCall_checks_pass info →
  ∃ method_str,
    arg info 0 = VString method_str ∧
    CreateCall info w
    = (method ← lift (CreateSliceFromString method_str);
       let deadline := To_double (arg info 1) in
       match arg info 2 with
       | VString host_str =>
           host ← lift new_grpc_slice;
           host_slice ← lift (CreateSliceFromString host_str);
           lift (store_slice host host_slice);;
           method_bytes ← lift (read_slice method);
           host_bytes ← lift (read_slice_box host);
           call_core (grpc_channel_create_call c (createCall_parent info)
                        (createCall_flags info) method_bytes (Some host_bytes) deadline);;
           calls ← get_log;
           let wrapped_call := core_call_result calls in
           lift (free (Some host));;
           lift (grpc_slice_unref method);;
           mret (Return (Call_WrapStruct wrapped_call))
       | VUndefined | VNull =>
           method_bytes ← lift (read_slice method);
           call_core (grpc_channel_create_call c (createCall_parent info)
                        (createCall_flags info) method_bytes NULL deadline);;
           calls ← get_log;
           let wrapped_call := core_call_result calls in
           lift (grpc_slice_unref method);;
           mret (Return (Call_WrapStruct wrapped_call))
       | _ =>
           mret (ThrowTypeError "createCall's third argument must be a string")
       end) w.
Proof.
  intros Hthis Hobj (Hmethod & Hdeadline & Hparent & Hflags).
  destruct (arg info 0) as [| | | |method_str| | | | | |] eqn:Harg0; try done.
  exists method_str. split; [done|].
  unfold CreateCall. rewrite Hthis, Harg0, Hdeadline.
  cbn [HasInstance IsString negb].
  unfold createCall_parent, createCall_flags.
  destruct (Call_HasInstance (arg info 3)) eqn:Hcall; cbn [negb andb];
    [|cbn [orb] in Hparent; rewrite Hparent; cbn [negb]];
    (destruct (IsUint32 (arg info 4)) eqn:Huint; cbn [negb andb];
     [|cbn [orb] in Hflags; rewrite Hflags; cbn [negb]]);
    by erewrite JS_bind_eq by (by apply Unwrap_eq).
Qed.

(** C7, the path that breaks it.  [createCall] on an open channel with
    a host that is neither a string nor null nor undefined ends with a
    type error after the method slice was made: no call into the gRPC
    core is made, and the slice is still allocated when the method
    returns. *)
Theorem CreateCall_bad_host_keeps_method_slice info obj c w :
  This info = VChannel obj →
  channels w !! obj = Some {| wrapped_channel := Some c |} →
  createCall_checks_pass info →
  IsString (arg info 2) = false →
  IsUndefined (arg info 2) || IsNull (arg info 2) = false →
  ∃ method_str method,
    arg info 0 = VString method_str ∧
    heap w !! method = None ∧
    CreateCall info w
    = Some (ThrowTypeError "createCall's third argument must be a string",
            {| heap := <[method := slice (list_ascii_of_string method_str)]> (heap w);
               channels := channels w;
               log := log w |}).
Proof.
  intros Hthis Hobj Hchecks Hstr Hnull.
  destruct (CreateCall_open info obj c w Hthis Hobj Hchecks)
    as (method_str & Harg0 & ->).
  exists method_str, (fresh (dom (heap w))).
  split; [done|]. split; [apply not_elem_of_dom, is_fresh|].
  erewrite JS_bind_eq by (by apply lift_eq).
  destruct (arg info 2); done.
Qed.

Lemma store_slice_eq host s o h :
  h !! host = Some (slice_box o) →
  store_slice host s h = Some (tt, <[host := slice_box (Some s)]> h).
Proof.
  intros Hhost. unfold store_slice, load, store, mbind, C_bind.
  by rewrite Hhost, Hhost.
Qed.

Lemma read_slice_eq s bytes h :
  h !! s = Some (slice bytes) → read_slice s h = Some (bytes, h).
Proof. intros Hs. unfold read_slice, load, mbind, C_bind. by rewrite Hs. Qed.

Lemma read_slice_box_eq host s bytes h :
  h !! host = Some (slice_box (Some s)) → h !! s = Some (slice bytes) →
  read_slice_box host h = Some (bytes, h).
Proof.
  intros Hhost Hs. unfold read_slice_box, load, mbind, C_bind.
  rewrite Hhost. by apply read_slice_eq.
Qed.

Lemma free_eq a b h : h !! a = Some b → free (Some a) h = Some (tt, delete a h).
Proof. intros Ha. unfold free. by rewrite Ha. Qed.

Lemma grpc_slice_unref_eq s bytes h :
  h !! s = Some (slice bytes) → grpc_slice_unref s h = Some (tt, delete s h).
Proof.
  intros Hs. unfold grpc_slice_unref, load, mbind, C_bind. rewrite Hs.
  by eapply free_eq.
Qed.

(** The other two paths of [createCall], for comparison.  Without a
    host the method slice is released after the call, whatever the
    call returns, and the heap is as before. *)
Lemma CreateCall_without_host info obj c w :
  This info = VChannel obj →
  channels w !! obj = Some {| wrapped_channel := Some c |} →
  createCall_checks_pass info →
  IsUndefined (arg info 2) || IsNull (arg info 2) = true →
  ∃ method_str,
    arg info 0 = VString method_str ∧
    let calls :=
      log w ++ [grpc_channel_create_call c (createCall_parent info)
                  (createCall_flags info) (list_ascii_of_string method_str) NULL
                  (To_double (arg info 1))] in
    CreateCall info w
    = Some (Return (Call_WrapStruct (core_call_result calls)),
            {| heap := heap w; channels := channels w; log := calls |}).
Proof.
  intros Hthis Hobj Hchecks Hnull.
  destruct (CreateCall_open info obj c w Hthis Hobj Hchecks)
    as (method_str & Harg0 & ->).
  exists method_str. split; [done|].
  pose proof (is_fresh (dom (heap w))) as Hfresh%not_elem_of_dom.
  erewrite JS_bind_eq by (by apply lift_eq).
  assert (∀ (f : list ascii → JS outcome) w1,
    heap w1 = <[fresh (dom (heap w)) := slice (list_ascii_of_string method_str)]> (heap w) →
    (lift (read_slice (fresh (dom (heap w)))) ≫= f) w1
    = f (list_ascii_of_string method_str) w1) as Hread.
  { intros f w1 Hw1. erewrite JS_bind_eq; [done|].
    destruct w1 as [h1 ch1 l1]. cbn in Hw1. subst h1.
    unfold lift, read_slice, load, mbind, C_bind. cbn.
    by rewrite lookup_insert_eq. }
  destruct (arg info 2); try done.
  all: rewrite Hread by done.
  all: erewrite JS_bind_eq by reflexivity.
  all: erewrite JS_bind_eq by reflexivity.
  all: unfold lift, grpc_slice_unref, load, free, mbind, C_bind, JS_bind; cbn.
  all: rewrite !lookup_insert_eq; cbn.
  all: by rewrite delete_insert_eq, delete_id.
Qed.

(** With a host string the method slice is released after the call,
    and so is the box made by [new]; the host slice is not: no
    [grpc_slice_unref] is applied to it, and it is still allocated when
    the method returns. *)
Lemma CreateCall_with_host info obj c host_str w :
  This info = VChannel obj →
  channels w !! obj = Some {| wrapped_channel := Some c |} →
  createCall_checks_pass info →
  arg info 2 = VString host_str →
  ∃ method_str host_slice,
    arg info 0 = VString method_str ∧
    heap w !! host_slice = None ∧
    let calls :=
      log w ++ [grpc_channel_create_call c (createCall_parent info)
                  (createCall_flags info) (list_ascii_of_string method_str)
                  (Some (list_ascii_of_string host_str))
                  (To_double (arg info 1))] in
    CreateCall info w
    = Some (Return (Call_WrapStruct (core_call_result calls)),
            {| heap := <[host_slice := slice (list_ascii_of_string host_str)]> (heap w);
               channels := channels w; log := calls |}).
Proof.
  intros Hthis Hobj Hchecks Hhost.
  destruct (CreateCall_open info obj c w Hthis Hobj Hchecks)
    as (method_str & Harg0 & ->).
  rewrite Hhost.
  set (h := heap w).
  set (m := fresh (dom h)).
  set (h1 := <[m := slice (list_ascii_of_string method_str)]> h).
  set (b := fresh (dom h1)).
  set (h2 := <[b := slice_box NULL]> h1).
  set (s := fresh (dom h2)).
  set (h3 := <[s := slice (list_ascii_of_string host_str)]> h2).
  assert (h !! m = None) as Hm by apply not_elem_of_dom, is_fresh.
  assert (h1 !! b = None) as Hb by apply not_elem_of_dom, is_fresh.
  assert (h2 !! s = None) as Hs by apply not_elem_of_dom, is_fresh.
  assert (b ≠ m) as Hbm by (intros Heq; unfold h1 in Hb; by rewrite Heq, lookup_insert_eq in Hb).
  assert (s ≠ b) as Hsb by (intros Heq; unfold h2 in Hs; by rewrite Heq, lookup_insert_eq in Hs).
  assert (s ≠ m) as Hsm.
  { intros Heq. unfold h2, h1 in Hs.
    by rewrite lookup_insert_ne, Heq, lookup_insert_eq in Hs. }
  assert (h !! s = None) as Hs0.
  { unfold h2, h1 in Hs. by rewrite !lookup_insert_ne in Hs. }
  assert (h !! b = None) as Hb0.
  { unfold h1 in Hb. by rewrite lookup_insert_ne in Hb. }
  exists method_str, s. split; [done|]. split; [done|].
  erewrite JS_bind_eq by (apply lift_eq; reflexivity).
  erewrite JS_bind_eq by (apply lift_eq; reflexivity).
  erewrite JS_bind_eq by (apply lift_eq; reflexivity).
  cbn [heap]. fold h m h1 b h2 s h3.
  erewrite JS_bind_eq
    by (apply lift_eq; cbn [heap]; eapply store_slice_eq; unfold h3, h2; heap_lookup).
  erewrite JS_bind_eq
    by (apply lift_eq; cbn [heap]; eapply read_slice_eq; unfold h3, h2, h1; heap_lookup).
  erewrite JS_bind_eq
    by (apply lift_eq; cbn [heap]; eapply (read_slice_box_eq _ s);
        unfold h3, h2, h1; heap_lookup).
  erewrite JS_bind_eq by reflexivity.
  erewrite JS_bind_eq by reflexivity.
  erewrite JS_bind_eq
    by (apply lift_eq; cbn [heap]; eapply free_eq; unfold h3, h2, h1; heap_lookup).
  erewrite JS_bind_eq
    by (apply lift_eq; cbn [heap]; eapply grpc_slice_unref_eq;
        rewrite lookup_delete_ne by done; unfold h3, h2, h1; heap_lookup).
  unfold mret, JS_ret. do 3 f_equal.
  apply map_eq. intros i. unfold h3, h2, h1.
  destruct (decide (i = m)) as [->|]; [by rewrite lookup_delete_eq, lookup_insert_ne|].
  rewrite lookup_delete_ne by done.
  destruct (decide (i = b)) as [->|]; [by rewrite lookup_delete_eq, lookup_insert_ne|].
  rewrite lookup_delete_ne by done.
  rewrite lookup_insert_ne by done.
  destruct (decide (i = s)) as [->|]; [by rewrite !lookup_insert_eq|].
  by rewrite !lookup_insert_ne.
Qed.

(** ** More of the encoder *)

Lemma c_str_nul_free (l : list ascii) : zero ∉ l → c_str (l ++ [zero]) = l.
Proof.
  induction l as [|c l IH]; intros Hl; simpl.
  - done.
  - unfold is_nul. rewrite bool_decide_eq_false_2 by set_solver.
    f_equal. apply IH. set_solver.
Qed.

Lemma c_str_cut (l rest : list ascii) : zero ∉ l → c_str (l ++ zero :: rest) = l.
Proof.
  induction l as [|c l IH]; intros Hl; simpl.
  - done.
  - unfold is_nul. rewrite bool_decide_eq_false_2 by set_solver.
    f_equal. apply IH. set_solver.
Qed.

Lemma strcmp_c_str (a b : list ascii) : strcmp a b = 0 ↔ c_str a = c_str b.
Proof.
  revert b. induction a as [|x a IH]; intros [|y b]; simpl.
  - done.
  - unfold is_nul. case_bool_decide as Hy.
    + subst y. done.
    + split; [|done]. intros Hcmp. exfalso. apply Hy, nat_of_ascii_inj.
      change (nat_of_ascii zero) with 0%nat. lia.
  - unfold is_nul. case_bool_decide as Hx.
    + subst x. done.
    + split; [|done]. intros Hcmp. exfalso. apply Hx, nat_of_ascii_inj.
      change (nat_of_ascii zero) with 0%nat. lia.
  - destruct (decide (x = y)) as [->|Hxy].
    + destruct (is_nul y); [done|]. rewrite IH. split; [by intros ->|].
      by intros [= ->].
    + split.
      * intros Hcmp. exfalso. apply Hxy, nat_of_ascii_inj. lia.
      * unfold is_nul. repeat case_bool_decide; simplify_eq; intros [=]; done.
Qed.

(** X1. Every run of [ParseChannelArgs], on any value, is defined, and
    [DeallocateChannelArgs] on the pointer it leaves ends in the heap
    the run started from, whether the pass succeeded or not.  On a
    value that is not an object (nor null nor undefined) the pass
    fails with a null pointer and allocates nothing. *)
Theorem ParseChannelArgs_then_DeallocateChannelArgs args_val h :
  NoDup (own_properties (options_object args_val)).*1 →
  ∃ ok ptr h',
    ParseChannelArgs args_val h = Some ((ok, ptr), h') ∧
    DeallocateChannelArgs ptr h' = Some (tt, h) ∧
    (IsObject (options_object args_val) = false →
     ok = false ∧ ptr = NULL ∧ h' = h).
Proof.
  intros Hnd.
  destruct (ParseChannelArgs_spec args_val h Hnd) as ([ok ptr] & h' & Hrun & Hpost).
  exists ok, ptr, h'. split; [done|]. cbn [fst snd] in Hpost.
  destruct (IsObject (options_object args_val)).
  - destruct Hpost as (p & a & n & pop & es & -> & Hparsed & _).
    split; [by eapply DeallocateChannelArgs_parsed|done].
  - destruct Hpost as [[= -> ->] ->]. done.
Qed.

(** X2. On options without own enumerable properties (undefined, null,
    the empty object) the pass succeeds and the list that the gRPC core
    reads has exactly one entry: the primary user agent key with the C
    string of [grpc_node_user_agent]. *)
Theorem ParseChannelArgs_no_options args_val h :
  IsObject (options_object args_val) = true →
  own_properties (options_object args_val) = [] →
  ∃ p h',
    ParseChannelArgs args_val h = Some ((true, Some p), h') ∧
    read_channel_args (Some p) h'
    = Some ([(c_string GRPC_ARG_PRIMARY_USER_AGENT_STRING,
              string_arg (c_string grpc_node_user_agent))], h').
Proof.
  intros Hobj Hprops.
  destruct (ParseChannelArgs_outcome args_val h)
    as ([ok ptr] & h' & Hrun & Hok & Hptr & _ & Hread).
  { rewrite Hprops. constructor. }
  cbn [fst snd] in *. rewrite Hobj, Hprops in Hok. cbn in Hok. subst ok.
  destruct (Hptr Hobj) as [p ->]. exists p, h'. split; [done|].
  rewrite Hread by done. by rewrite Hprops.
Qed.

(** X3. In a successful pass the keys of the list are the property
    names in their enumeration order, each as a C string, followed by
    the primary user agent key if the user did not give it. *)
Theorem ParseChannelArgs_keeps_order args_val h :
  let props := own_properties (options_object args_val) in
  NoDup props.*1 → options_accepted args_val →
  ∃ p h' out,
    ParseChannelArgs args_val h = Some ((true, Some p), h') ∧
    read_channel_args (Some p) h' = Some (out, h') ∧
    out.*1 = (c_string <$> props.*1) ++
             (if bool_decide (GRPC_ARG_PRIMARY_USER_AGENT_STRING ∈ props.*1)
              then [] else [c_string GRPC_ARG_PRIMARY_USER_AGENT_STRING]).
Proof.
  intros props Hnd [Hobj Hacc].
  destruct (ParseChannelArgs_outcome args_val h Hnd)
    as ([ok ptr] & h' & Hrun & Hok & Hptr & _ & Hread).
  cbn [fst snd] in *. fold props in Hok, Hread, Hacc.
  rewrite Hobj, Hacc in Hok. cbn in Hok. subst ok.
  destruct (Hptr Hobj) as [p ->]. exists p, h', (encoded_list props).
  split; [done|]. split; [by apply Hread|]. apply encoded_list_keys.
Qed.

(** X4. When the user gives the primary user agent key with a 32-bit
    integer, a successful pass stores that integer under the key and
    adds no entry of its own: the list has as many entries as the
    options and no key occurs twice. *)
Theorem ParseChannelArgs_integer_user_agent args_val v h :
  let props := own_properties (options_object args_val) in
  NoDup props.*1 → options_accepted args_val →
  (GRPC_ARG_PRIMARY_USER_AGENT_STRING, v) ∈ props → IsInt32 v = true →
  ∃ p h' out,
    ParseChannelArgs args_val h = Some ((true, Some p), h') ∧
    read_channel_args (Some p) h' = Some (out, h') ∧
    NoDup out.*1 ∧
    length out = length props ∧
    (c_string GRPC_ARG_PRIMARY_USER_AGENT_STRING, integer_arg (To_integer v)) ∈ out.
Proof.
  intros props Hnd [Hobj Hacc] Hin Hint.
  destruct (ParseChannelArgs_outcome args_val h Hnd)
    as ([ok ptr] & h' & Hrun & Hok & Hptr & _ & Hread).
  cbn [fst snd] in *. fold props in Hok, Hread, Hacc.
  rewrite Hobj, Hacc in Hok. cbn in Hok. subst ok.
  destruct (Hptr Hobj) as [p ->]. exists p, h', (encoded_list props).
  split; [done|]. split; [by apply Hread|].
  split; [by apply encoded_list_NoDup|]. split.
  - rewrite encoded_list_length, bool_decide_eq_true_2; [lia|].
    apply list_elem_of_fmap. by exists (GRPC_ARG_PRIMARY_USER_AGENT_STRING, v).
  - unfold encoded_list. apply elem_of_app. left.
    apply list_elem_of_fmap. exists (GRPC_ARG_PRIMARY_USER_AGENT_STRING, v).
    split; [|done]. unfold encoded. cbn [fst snd]. by rewrite Hint.
Qed.

(** X5. A key that [strcmp] cannot tell from the primary user agent
    key, because it continues after a NUL character, is treated as
    that key for its string value and as another key for the count:
    when the exact key is absent, a successful pass stores the user's
    string followed by one space and [grpc_node_user_agent] under the
    user's key and also adds the standard entry, so the list holds two
    entries whose keys read as the same C string. *)
Theorem ParseChannelArgs_key_after_NUL args_val k s h :
  let props := own_properties (options_object args_val) in
  NoDup props.*1 → options_accepted args_val →
  (k, VString s) ∈ props →
  c_str (c_string k) = list_ascii_of_string GRPC_ARG_PRIMARY_USER_AGENT_STRING →
  GRPC_ARG_PRIMARY_USER_AGENT_STRING ∉ props.*1 →
  ∃ p h' out,
    ParseChannelArgs args_val h = Some ((true, Some p), h') ∧
    read_channel_args (Some p) h' = Some (out, h') ∧
    (c_string k,
     string_arg (c_string (s +:+ " " +:+ grpc_node_user_agent))) ∈ out ∧
    (c_string GRPC_ARG_PRIMARY_USER_AGENT_STRING,
     string_arg (c_string grpc_node_user_agent)) ∈ out ∧
    c_string k ≠ c_string GRPC_ARG_PRIMARY_USER_AGENT_STRING ∧
    c_str (c_string k) = c_str (c_string GRPC_ARG_PRIMARY_USER_AGENT_STRING).
Proof.
  intros props Hnd [Hobj Hacc] Hin Hread_key Hua.
  destruct (ParseChannelArgs_outcome args_val h Hnd)
    as ([ok ptr] & h' & Hrun & Hok & Hptr & _ & Hread).
  cbn [fst snd] in *. fold props in Hok, Hread, Hacc.
  rewrite Hobj, Hacc in Hok. cbn in Hok. subst ok.
  destruct (Hptr Hobj) as [p ->]. exists p, h', (encoded_list props).
  assert (c_str (c_string k) = c_str (c_string GRPC_ARG_PRIMARY_USER_AGENT_STRING))
    as Hsame.
  { rewrite Hread_key. symmetry. apply c_str_nul_free.
    by apply (bool_decide_unpack _). }
  split; [done|]. split; [by apply Hread|]. split; [|split; [|split]].
  - unfold encoded_list. apply elem_of_app. left.
    apply list_elem_of_fmap. exists (k, VString s). split; [|done].
    unfold encoded, is_user_agent_key. cbn [fst snd IsInt32].
    rewrite bool_decide_eq_true_2 by (by apply strcmp_c_str).
    by rewrite c_string_joined.
  - unfold encoded_list. apply elem_of_app. right.
    rewrite bool_decide_eq_false_2 by done. apply list_elem_of_singleton. done.
  - intros Heq%(inj _). apply Hua. rewrite <-Heq.
    apply list_elem_of_fmap. by exists (k, VString s).
  - done.
Qed.

(** X6. Round trip for text without NUL characters.  In a successful
    pass, for every property whose name has no NUL character and is
    not the primary user agent key, the list holds an entry whose key
    reads, as a C string, as the property name; if the value is a
    string without NUL characters, the stored array reads as that
    string, and if it is a 32-bit integer, the stored integer is that
    integer. *)
Theorem ParseChannelArgs_round_trip args_val k v h :
  let props := own_properties (options_object args_val) in
  NoDup props.*1 → options_accepted args_val →
  (k, v) ∈ props →
  zero ∉ list_ascii_of_string k →
  k ≠ GRPC_ARG_PRIMARY_USER_AGENT_STRING →
  ∃ p h' out kcs c,
    ParseChannelArgs args_val h = Some ((true, Some p), h') ∧
    read_channel_args (Some p) h' = Some (out, h') ∧
    (kcs, c) ∈ out ∧
    string_of_list_ascii (c_str kcs) = k ∧
    (∀ s, v = VString s → zero ∉ list_ascii_of_string s →
          ∃ cs, c = string_arg cs ∧ string_of_list_ascii (c_str cs) = s) ∧
    (IsInt32 v = true → c = integer_arg (To_integer v)).
Proof.
  intros props Hnd [Hobj Hacc] Hin Hk Hne.
  destruct (ParseChannelArgs_outcome args_val h Hnd)
    as ([ok ptr] & h' & Hrun & Hok & Hptr & _ & Hread).
  cbn [fst snd] in *. fold props in Hok, Hread, Hacc.
  rewrite Hobj, Hacc in Hok. cbn in Hok. subst ok.
  destruct (Hptr Hobj) as [p ->].
  exists p, h', (encoded_list props), (encoded (k, v)).1, (encoded (k, v)).2.
  split; [done|]. split; [by apply Hread|]. split; [|split; [|split]].
  - unfold encoded_list. apply elem_of_app. left.
    apply list_elem_of_fmap. exists (k, v). split; [|done]. by destruct (encoded (k, v)).
  - cbn. unfold c_string. rewrite c_str_nul_free by done.
    apply string_of_list_ascii_of_string.
  - intros s -> Hs. unfold encoded. cbn [fst snd IsInt32].
    rewrite is_user_agent_key_nul_free by done.
    rewrite bool_decide_eq_false_2 by done.
    eexists. split; [done|]. unfold c_string. rewrite c_str_nul_free by done.
    apply string_of_list_ascii_of_string.
  - intros Hint. unfold encoded. cbn [fst snd]. by rewrite Hint.
Qed.

Lemma C_bind_match {A B} (m : C A) (f : A → C B) h :
  (m ≫= f) h = match m h with Some (a, h') => f a h' | None => None end.
Proof. reflexivity. Qed.

(** The loop over [k1 ++ k2] is the loop over [k1] and, if that one
    runs to its end, the loop over [k2] from the next index. *)
Lemma ParseChannelArgs_loop_app p obj k1 k2 :
  ∀ i h,
    ParseChannelArgs_loop p obj (k1 ++ k2) i h
    = match ParseChannelArgs_loop p obj k1 i h with
      | Some (true, h') => ParseChannelArgs_loop p obj k2 (i + length k1) h'
      | r => r
      end.
Proof.
  induction k1 as [|key k1 IH]; intros i h.
  { cbn. by rewrite Nat.add_0_r. }
  cbn [app ParseChannelArgs_loop length].
  destruct (Utf8String key) as [key_str|]; [|done].
  rewrite !C_bind_match.
  match goal with
  | |- context [match ?X with Some _ => _ | None => _ end] =>
      destruct X as [[[] h1]|]
  end; [|done|done].
  rewrite !C_bind_match.
  destruct (calloc_chars (String.length key_str + 1) h1) as [[k h2]|]; [|done].
  rewrite !C_bind_match.
  destruct (update_arg p i (set_key (Some k)) h2) as [[[] h3]|]; [|done].
  rewrite !C_bind_match.
  destruct (memcpy k 0 (c_string key_str) (String.length key_str + 1) h3)
    as [[[] h4]|]; [|done].
  rewrite IH. by replace (i + S (length k1))%nat with (S i + length k1)%nat by lia.
Qed.

(** A rejected value ends the loop where it stands. *)
Lemma ParseChannelArgs_loop_rejected p obj k v keys i h :
  Get obj (VString k) = v → accepted (k, v) = false →
  ParseChannelArgs_loop p obj (VString k :: keys) i h = Some (false, h).
Proof.
  intros Hget Hrej. unfold accepted in Hrej. cbn [fst snd] in Hrej.
  apply orb_false_iff in Hrej as [Hint Hstr].
  cbn [ParseChannelArgs_loop Utf8String]. rewrite Hget, Hint, Hstr. reflexivity.
Qed.

Lemma ParseChannelArgs_loop_prefix h0 p a n obj pre k v tail pop es h :
  parsed h0 h p a n pop es →
  (length pop + length (pre ++ (k, v) :: tail) ≤ n)%nat →
  Forall (λ kv, Get obj (VString kv.1) = kv.2) (pre ++ (k, v) :: tail) →
  Forall (λ kv, accepted kv = true) pre → accepted (k, v) = false →
  wp (ParseChannelArgs_loop p obj
        ((λ kv, VString kv.1) <$> pre ++ (k, v) :: tail) (length pop)) h
     (λ completed h',
        completed = false ∧
        ∃ pop', parsed h0 h' p a n pop' (es ++ (encoded <$> pre)) ∧
                length pop' = (length pop + length pre)%nat).
Proof.
  intros Hparsed Hlen Hget Hacc Hrej.
  apply Forall_app in Hget as [Hget_pre Hget_rest].
  apply Forall_cons in Hget_rest as [Hget_k _]. cbn [fst snd] in Hget_k.
  rewrite length_app in Hlen.
  destruct (ParseChannelArgs_loop_spec h0 p a n obj pre pop es h Hparsed)
    as (completed & h1 & Hrun & pop' & es' & Hparsed' & Hpost); [lia|done|].
  destruct completed.
  - destruct Hpost as (_ & -> & Hlen').
    exists false, h1. split; [|eauto].
    rewrite fmap_app, ParseChannelArgs_loop_app, Hrun. cbn [fmap list_fmap fst].
    by apply (ParseChannelArgs_loop_rejected _ _ k v).
  - destruct Hpost as [Hex _]. apply Exists_exists in Hex as (kv & Hin & Hkv).
    rewrite Forall_forall in Hacc. specialize (Hacc kv Hin). congruence.
Qed.

(** X7. A pass over options whose first rejected value comes after the
    properties [pre] fails with a list in which exactly the entries of
    [pre] are populated, in order and with the contents a successful
    pass gives them; every later entry, the one of the rejected value
    included, is zero with a null key.  The heap is the initial heap
    and the blocks of that list. *)
Theorem ParseChannelArgs_stops_at_first_rejected pre k v tail h :
  let props := pre ++ (k, v) :: tail in
  NoDup props.*1 →
  Forall (λ kv, accepted kv = true) pre → accepted (k, v) = false →
  ∃ p a n pop h',
    ParseChannelArgs (VObject props) h = Some ((false, Some p), h') ∧
    parsed h h' p a n pop (encoded <$> pre) ∧
    length pop = length pre ∧ (length pre < n)%nat.
Proof.
  intros props Hnd Hacc Hrej.
  enough (wp (ParseChannelArgs (VObject props)) h
            (λ r h', ∃ p a n pop,
               r = (false, Some p) ∧ parsed h h' p a n pop (encoded <$> pre) ∧
               length pop = length pre ∧ (length pre < n)%nat)) as Hwp.
  { destruct Hwp as (r & h' & Hrun & p & a & n & pop & -> & Hpost).
    exists p, a, n, pop, h'. done. }
  unfold ParseChannelArgs. cbn [IsUndefined IsNull orb IsObject negb].
  apply wp_bind. apply wp_alloc. intros p Hp0.
  apply wp_bind. eapply wp_store_num_args; [heap_lookup|]. cbn [args].
  rewrite insert_insert_eq.
  unfold GetOwnPropertyNames, HasOwnProperty. cbn [own_properties].
  rewrite length_fmap.
  set (has_user_agent_arg := bool_decide (GRPC_ARG_PRIMARY_USER_AGENT_STRING ∈ props.*1)).
  set (n := if has_user_agent_arg then length props else (length props + 1)%nat).
  apply wp_bind.
  apply (wp_mono _ _ (λ _ h', h' = <[p := channel_args_struct
                                           {| num_args := n; args := NULL |}]> h)).
  { unfold n. destruct has_user_agent_arg; cbn [negb].
    - by apply wp_ret.
    - apply wp_bind. eapply wp_load_channel_args; [heap_lookup|].
      eapply wp_store_num_args; [heap_lookup|]. cbn [num_args args].
      by rewrite insert_insert_eq. }
  intros _ h' ->.
  apply wp_bind. eapply wp_load_channel_args; [heap_lookup|]. cbn [num_args].
  apply wp_bind. apply wp_alloc. intros a Ha.
  assert (a ≠ p) by (intros ->; by rewrite lookup_insert_eq in Ha).
  rewrite lookup_insert_ne in Ha by done.
  apply wp_bind. eapply wp_store_args; [heap_lookup|]. cbn [num_args].
  match goal with |- wp _ ?h' _ => set (h1 := h') end.
  assert (parsed h h1 p a n [] []) as Hparsed.
  { apply parsed_initial; unfold h1; try done; [heap_lookup..|].
    intros i ??. heap_lookup. }
  assert (length props = length pre + S (length tail))%nat as Hprops.
  { unfold props. rewrite length_app. done. }
  apply wp_bind. eapply wp_mono.
  { apply (ParseChannelArgs_loop_prefix h p a n (VObject props) pre k v tail
             [] [] h1 Hparsed); [| |done|done].
    - fold props. unfold n. simpl. destruct has_user_agent_arg; lia.
    - apply Forall_forall. intros [k' v'] Hin. by apply Get_own_property. }
  intros completed h2 (-> & pop & Hparsed2 & Hlen).
  apply wp_ret. exists p, a, n, pop. split; [done|]. split; [done|].
  split; [done|]. unfold n. destruct has_user_agent_arg; lia.
Qed.

(** ** More of the wrapper *)


(** X9. [Channel::New] looks at the target first: when the first
    argument is not a string it ends with the type error of the
    target, whatever the credentials and the options are, and the
    world is as before. *)
Theorem New_needs_a_string_target info w :
  IsString (arg info 0) = false →
  New info w
  = Some (ThrowTypeError "Channel expects a string, a credential and an object", w).
Proof.
  intros Htarget. unfold New, New_construct_call.
  destruct (IsConstructCall info); cbn [arg arguments nth];
    fold (arg info 0); by rewrite Htarget.
Qed.

(** X10. [Channel::New] with a string target and a ChannelCredentials
    instance, on options that [ParseChannelArgs] does not accept (not
    an object, or an object with a value that is neither a 32-bit
    integer nor a string), ends with the type error of the options;
    no call into the gRPC core is made, no object is wrapped, and what
    the pass allocated is given back: the world is as before. *)
Theorem New_bad_options_no_leak info target creds w :
  arg info 0 = VString target →
  arg info 1 = VChannelCredentials creds →
  NoDup (own_properties (options_object (arg info 2))).*1 →
  ¬ options_accepted (arg info 2) →
  New info w
  = Some (ThrowTypeError
            "Channel options must be an object with string keys and integer or string values",
          w).
Proof. apply New_rejects_options. Qed.

Lemma appends_mono {A} (P Q : core_call → Prop) (m : JS A) :
  (∀ e, P e → Q e) → appends P m → appends Q m.
Proof.
  intros HPQ Hm w a w' Hrun. destruct (Hm w a w' Hrun) as (Hch & l & Hlog & Hl).
  split; [done|]. exists l. split; [done|]. by eapply Forall_impl.
Qed.

Lemma appends_mret {A} P (a : A) : appends P (mret a).
Proof.
  intros w a' w' [= <- <-]. split; [done|]. exists []. by rewrite app_nil_r.
Qed.

Lemma appends_bind {A B} P (m : JS A) (f : A → JS B) :
  appends P m → (∀ a, appends P (f a)) → appends P (m ≫= f).
Proof.
  intros Hm Hf w b w' Hrun. unfold mbind, JS_bind in Hrun.
  destruct (m w) as [[a w1]|] eqn:Hmw; [|done].
  destruct (Hm w a w1 Hmw) as (Hch1 & l1 & Hlog1 & Hl1).
  destruct (Hf a w1 b w' Hrun) as (Hch2 & l2 & Hlog2 & Hl2).
  split.
  - intros obj Hobj. rewrite Hch2; [by apply Hch1|]. by rewrite Hch1.
  - exists (l1 ++ l2). split; [|by apply Forall_app].
    by rewrite Hlog2, Hlog1, <-(assoc_L (++)).
Qed.

Lemma appends_lift {A} P (m : C A) : appends P (lift m).
Proof.
  intros w a w' Hrun. unfold lift in Hrun.
  destruct (m (heap w)) as [[a' h']|]; [|done]. injection Hrun as _ <-.
  split; [done|]. exists []. by rewrite app_nil_r.
Qed.

Lemma appends_call_core (P : core_call → Prop) e : P e → appends P (call_core e).
Proof.
  intros He w a w' [= _ <-]. split; [done|]. exists [e]. split; [done|].
  by apply Forall_singleton.
Qed.

Lemma appends_get_log P : appends P get_log.
Proof.
  intros w a w' [= _ <-]. split; [done|]. exists []. by rewrite app_nil_r.
Qed.

Lemma appends_Unwrap P val : appends P (Unwrap val).
Proof.
  intros w a w' Hrun. unfold Unwrap in Hrun.
  repeat case_match; simplify_eq.
  split; [done|]. exists []. by rewrite app_nil_r.
Qed.

Lemma appends_Wrap P channel : appends P (Wrap channel).
Proof.
  intros w a w' [= _ <-]. cbn. split.
  - intros obj Hobj. rewrite lookup_insert_ne; [done|].
    intros Heq. pose proof (is_fresh (dom (channels w))) as Hnot.
    rewrite Heq in Hnot. by apply Hnot, elem_of_dom.
  - exists []. by rewrite app_nil_r.
Qed.

Ltac appends_step :=
  first
    [ apply appends_mret
    | apply appends_lift
    | apply appends_call_core; reflexivity
    | apply appends_get_log
    | apply appends_Unwrap
    | apply appends_Wrap
    | apply appends_bind; [|intros ?]
    | match goal with
      | |- appends _ (if ?b then _ else _) => destruct b
      | |- appends _ (match ?x with _ => _ end) => destruct x
      end ].

Lemma appends_New info : appends (λ e, uses_channel e = false) (New info).
Proof. unfold New, New_construct_call. repeat appends_step. Qed.

Lemma appends_GetTarget info : appends (λ e, is_destroy e = false) (GetTarget info).
Proof. unfold GetTarget. repeat appends_step. Qed.

Lemma appends_GetConnectivityState info :
  appends (λ e, is_destroy e = false) (GetConnectivityState info).
Proof. unfold GetConnectivityState. repeat appends_step. Qed.

Lemma appends_WatchConnectivityState info :
  appends (λ e, is_destroy e = false) (WatchConnectivityState info).
Proof. unfold WatchConnectivityState. repeat appends_step. Qed.

Lemma appends_CreateCall info : appends (λ e, is_destroy e = false) (CreateCall info).
Proof. unfold CreateCall. repeat appends_step. Qed.

Lemma appends_call_method m info :
  m ≠ Channel_Close → appends (λ e, is_destroy e = false) (call_method m info).
Proof.
  intros Hm. destruct m; cbn [call_method]; [|done|..].
  - eapply appends_mono; [|apply appends_New]. by intros [].
  - apply appends_GetTarget.
  - apply appends_GetConnectivityState.
  - apply appends_WatchConnectivityState.
  - apply appends_CreateCall.
Qed.

(** X11. Only [close] releases a handle.  A call of [Channel::New],
    [getTarget], [getConnectivityState], [watchConnectivityState] or
    [createCall], with any receiver and any arguments, never calls
    [grpc_channel_destroy] and leaves every wrapped object that exists
    with the handle it had; the log only grows. *)
Theorem only_Close_destroys m info w out w' :
  m ≠ Channel_Close →
  call_method m info w = Some (out, w') →
  (∀ obj, is_Some (channels w !! obj) → channels w' !! obj = channels w !! obj) ∧
  ∃ new, log w' = log w ++ new ∧ Forall (λ e, is_destroy e = false) new.
Proof. intros Hm Hrun. by eapply appends_call_method. Qed.

Lemma closed_receiver_no_effect m info obj w out w' :
  m ≠ Channel_New →
  This info = VChannel obj →
  channels w !! obj = Some {| wrapped_channel := NULL |} →
  call_method m info w = Some (out, w') →
  w' = w.
Proof.
  intros Hm Hthis Hclosed Hrun.
  destruct m; cbn [call_method] in Hrun; [done|..].
  - rewrite (Close_eq info obj _ w Hthis Hclosed) in Hrun. by injection Hrun.
  - rewrite (proj1 (closed_operations info obj w Hthis Hclosed)) in Hrun.
    by injection Hrun.
  - rewrite (proj2 (closed_operations info obj w Hthis Hclosed)) in Hrun.
    by injection Hrun.
  - unfold WatchConnectivityState in Hrun. rewrite Hthis in Hrun.
    cbn [HasInstance negb] in Hrun.
    repeat match type of Hrun with
           | (if ?b then _ else _) _ = _ => destruct b; [by injection Hrun|]
           end.
    destruct (arg info 2); try (by injection Hrun).
    erewrite JS_bind_eq in Hrun by (by apply Unwrap_eq). by injection Hrun.
  - unfold CreateCall in Hrun. rewrite Hthis in Hrun.
    cbn [HasInstance negb] in Hrun.
    repeat match type of Hrun with
           | (if ?b then _ else _) _ = _ => destruct b; [by injection Hrun|]
           end.
    erewrite JS_bind_eq in Hrun by (by apply Unwrap_eq). by injection Hrun.
Qed.

Lemma call_methods_cons m info calls w w' :
  call_methods ((m, info) :: calls) w = Some (tt, w') →
  ∃ out w1, call_method m info w = Some (out, w1) ∧ call_methods calls w1 = Some (tt, w').
Proof.
  cbn [call_methods]. unfold mbind, JS_bind. intros Hrun.
  destruct (call_method m info w) as [[out w1]|]; [|done]. by exists out, w1.
Qed.

Lemma closed_channel_log calls obj w w' :
  channels w !! obj = Some {| wrapped_channel := NULL |} →
  Forall (λ mi, mi.1 = Channel_New ∨ This mi.2 = VChannel obj) calls →
  call_methods calls w = Some (tt, w') →
  channels w' !! obj = Some {| wrapped_channel := NULL |} ∧
  ∃ after, log w' = log w ++ after ∧ Forall (λ e, uses_channel e = false) after.
Proof.
  intros Hclosed Hcalls. revert w Hclosed.
  induction Hcalls as [|[m info] calls Hmi Hcalls IH]; intros w Hclosed Hrun.
  - injection Hrun as <-. split; [done|]. exists []. by rewrite app_nil_r.
  - apply call_methods_cons in Hrun as (out & w1 & Hstep & Hrest).
    assert (m = Channel_New ∨ m ≠ Channel_New) as [->|Hm]
      by (destruct m; (by left) || by right).
    + destruct (appends_New info w out w1 Hstep) as (Hch & l & Hlog & Hl).
      destruct (IH w1) as (Hclosed' & after & Hlog' & Hafter); [|done|].
      { rewrite Hch; [done|]. by rewrite Hclosed. }
      split; [done|]. exists (l ++ after). split; [|by apply Forall_app].
      by rewrite Hlog', Hlog, <-(assoc_L (++)).
    + destruct Hmi as [?|Hthis]; [done|]. cbn in Hthis.
      assert (w1 = w) as -> by by eapply closed_receiver_no_effect.
      by apply IH.
Qed.

(** X12. The life of one channel handle.  For a channel that is open
    with handle [c] and any sequence of constructions and of method
    calls on that channel, with any arguments: the log of core calls
    only grows; either the channel is still open with the same handle
    and no [grpc_channel_destroy] was made, or it is closed and what
    was added has exactly one [grpc_channel_destroy], that of [c], and
    after it no call that is given a channel handle. *)
Theorem channel_lifecycle calls obj c w w' :
  channels w !! obj = Some {| wrapped_channel := Some c |} →
  Forall (λ mi, mi.1 = Channel_New ∨ This mi.2 = VChannel obj) calls →
  call_methods calls w = Some (tt, w') →
  ∃ new,
    log w' = log w ++ new ∧
    ((channels w' !! obj = Some {| wrapped_channel := Some c |} ∧
      Forall (λ e, is_destroy e = false) new) ∨
     (channels w' !! obj = Some {| wrapped_channel := NULL |} ∧
      ∃ before after,
        new = before ++ grpc_channel_destroy c :: after ∧
        Forall (λ e, is_destroy e = false) before ∧
        Forall (λ e, uses_channel e = false) after)).
Proof.
  intros Hopen Hcalls. revert w Hopen.
  induction Hcalls as [|[m info] calls Hmi Hcalls IH]; intros w Hopen Hrun.
  - injection Hrun as <-. exists []. rewrite app_nil_r. split; [done|]. by left.
  - apply call_methods_cons in Hrun as (out & w1 & Hstep & Hrest).
    assert (m = Channel_Close ∨ m ≠ Channel_Close) as [->|Hm]
      by (destruct m; (by left) || by right).
    + destruct Hmi as [?|Hthis]; [done|]. cbn in Hthis.
      cbn [call_method] in Hstep.
      rewrite (Close_eq info obj _ w Hthis Hopen) in Hstep.
      cbn [wrapped_channel] in Hstep. injection Hstep as _ <-.
      apply closed_channel_log with (obj := obj) in Hrest
        as (Hclosed & after & Hlog & Hafter);
        [|by cbn; rewrite lookup_insert_eq|done].
      cbn [log] in Hlog. exists (grpc_channel_destroy c :: after).
      split; [by rewrite Hlog, <-(assoc_L (++))|].
      right. split; [done|]. by exists [], after.
    + destruct (appends_call_method m info Hm w out w1 Hstep)
        as (Hch & l & Hlog & Hl).
      destruct (IH w1) as (new & Hlog' & Hcases); [|done|].
      { rewrite Hch; [done|]. by rewrite Hopen. }
      exists (l ++ new). split; [by rewrite Hlog', Hlog, <-(assoc_L (++))|].
      destruct Hcases as [[Hopen' Hnew]|(Hclosed & before & after & -> & Hbefore & Hafter)].
      * left. split; [done|]. by apply Forall_app.
      * right. split; [done|]. exists (l ++ before), after.
        split; [by rewrite <-(assoc_L (++))|]. split; [by apply Forall_app|done].
Qed.

(** X13. [createCall] tests the types of the method, the deadline, the
    parent call and the propagation flags before it looks at the state
    of the channel and before it allocates anything: when one of these
    tests fails the call ends with a type error and the world is as
    before, on a closed channel as on an open one. *)
Theorem CreateCall_type_errors_come_first info w :
  ¬ createCall_checks_pass info →
  ∃ msg, CreateCall info w = Some (ThrowTypeError msg, w).
Proof.
  intros Hnot. unfold CreateCall.
  destruct (negb (HasInstance (This info))); [by eexists|].
  destruct (negb (IsString (arg info 0))) eqn:Hmethod; [by eexists|].
  destruct (negb (IsNumber (arg info 1) || IsDate (arg info 1))) eqn:Hdeadline;
    [by eexists|].
  destruct (negb (Call_HasInstance (arg info 3))
            && negb (IsUndefined (arg info 3) || IsNull (arg info 3))) eqn:Hparent;
    [by eexists|].
  destruct (negb (IsUint32 (arg info 4))
            && negb (IsUndefined (arg info 4) || IsNull (arg info 4))) eqn:Hflags;
    [by eexists|].
  exfalso. apply Hnot. unfold createCall_checks_pass.
  apply negb_false_iff in Hmethod, Hdeadline.
  split; [done|]. split; [done|]. split.
  - destruct (Call_HasInstance (arg info 3)); [done|].
    cbn [negb andb] in Hparent. by apply negb_false_iff in Hparent.
  - destruct (IsUint32 (arg info 4)); [done|].
    cbn [negb andb] in Hflags. by apply negb_false_iff in Hflags.
Qed.

(** X14. [createCall] on an open channel without a host (undefined or
    null): exactly one [grpc_channel_create_call] is made, on the
    handle of the channel, with a null host, with the wrapped parent
    call or null when none is given, and with the given flags or
    [GRPC_PROPAGATE_DEFAULTS] when none are given.  What the core
    returns is handed to [Call::WrapStruct] untested, and the method
    slice is released: the heap and the channel are as before. *)
Theorem CreateCall_default_host info obj c w :
  This info = VChannel obj →
  channels w !! obj = Some {| wrapped_channel := Some c |} →
  createCall_checks_pass info →
  IsUndefined (arg info 2) || IsNull (arg info 2) = true →
  ∃ method_str parent_call propagate_flags,
    arg info 0 = VString method_str ∧
    (Call_HasInstance (arg info 3) = true → parent_call = GetWrappedCall (arg info 3)) ∧
    (Call_HasInstance (arg info 3) = false → parent_call = NULL) ∧
    (IsUint32 (arg info 4) = true → propagate_flags = To_integer (arg info 4)) ∧
    (IsUint32 (arg info 4) = false → propagate_flags = GRPC_PROPAGATE_DEFAULTS) ∧
    let calls :=
      log w ++ [grpc_channel_create_call c parent_call propagate_flags
                  (list_ascii_of_string method_str) NULL (To_double (arg info 1))] in
    CreateCall info w
    = Some (Return (Call_WrapStruct (core_call_result calls)),
            {| heap := heap w; channels := channels w; log := calls |}).
Proof.
  intros Hthis Hobj Hchecks Hnull.
  destruct (CreateCall_without_host info obj c w Hthis Hobj Hchecks Hnull)
    as (method_str & Harg0 & Hrun).
  exists method_str, (createCall_parent info), (createCall_flags info).
  split; [done|]. unfold createCall_parent, createCall_flags in *.
  repeat split; try done; by intros ->.
Qed.

(** X15. [createCall] on an open channel with a host string: one
    [grpc_channel_create_call] is made with the bytes of the method and
    of the host; afterwards the method slice and the box made by [new]
    are released, but the host slice is not: the heap is the heap of
    before with one more block, the slice that holds the host. *)
Theorem CreateCall_host_slice_remains info obj c host_str w :
  This info = VChannel obj →
  channels w !! obj = Some {| wrapped_channel := Some c |} →
  createCall_checks_pass info →
  arg info 2 = VString host_str →
  ∃ method_str host_slice out w',
    arg info 0 = VString method_str ∧
    CreateCall info w = Some (Return out, w') ∧
    heap w !! host_slice = None ∧
    heap w' = <[host_slice := slice (list_ascii_of_string host_str)]> (heap w) ∧
    channels w' = channels w ∧
    log w' = log w ++ [grpc_channel_create_call c (createCall_parent info)
                         (createCall_flags info) (list_ascii_of_string method_str)
                         (Some (list_ascii_of_string host_str))
                         (To_double (arg info 1))] ∧
    out = Call_WrapStruct (core_call_result (log w')).
Proof.
  intros Hthis Hobj Hchecks Hhost.
  destruct (CreateCall_with_host info obj c host_str w Hthis Hobj Hchecks Hhost)
    as (method_str & host_slice & Harg0 & Hfresh & Hrun).
  exists method_str, host_slice. eexists _, _.
  split; [done|]. split; [exact Hrun|]. done.
Qed.

(** X16. [Channel::New] reads its first three arguments and nothing
    else: called as a plain function or as a constructor, with any
    receiver and any further arguments, it gives the same outcome and
    the same world. *)
Theorem New_reads_three_arguments info info' w :
  arg info 0 = arg info' 0 →
  arg info 1 = arg info' 1 →
  arg info 2 = arg info' 2 →
  New info w = New info' w.
Proof.
  intros H0 H1 H2.
  assert (∀ i, New i w
               = New_construct_call
                   {| This := VUndefined; IsConstructCall := true;
                      arguments := [arg i 0; arg i 1; arg i 2] |} w) as Hnew.
  { intros i. unfold New. destruct (IsConstructCall i); [|done].
    unfold New_construct_call. cbn [arg arguments nth]. by fold (arg i 0) (arg i 1) (arg i 2). }
  by rewrite (Hnew info), (Hnew info'), H0, H1, H2.
Qed.

End channel.

(** ** The claims on concrete inputs *)

(** The options [{a: 5, b: true}]: the pass stops at [b]. *)
Lemma ParseChannelArgs_failure_is_released_witness :
  ∃ p a n pop es h',
    ParseChannelArgs "1.0.0"
      (VObject [("a", VNumber (Integral 5)); ("b", VBoolean true)]) ∅
    = Some ((false, Some p), h') ∧
    parsed ∅ h' p a n pop es ∧ (length pop < n)%nat ∧
    DeallocateChannelArgs (Some p) h' = Some (tt, ∅).
Proof.
  apply (ParseChannelArgs_failure_is_released "1.0.0" _ "b" (VBoolean true)).
  - by apply (bool_decide_unpack _).
  - repeat constructor.
  - reflexivity.
  - reflexivity.
Defined.

(** C2, the claim as it stands.  On the options
    [{"grpc.primary_user_agent": "myapp/1.0"}], whose one value is a
    string, the pass succeeds and the list does not hold the key with
    the original value; on the options
    [{"grpc.max_receive_message_length": 2147483648}], whose one value
    is an integer, the pass fails. *)
Lemma ParseChannelArgs_original_value_counterexample :
  (∃ p h out,
     ParseChannelArgs "1.0.0"
       (VObject [("grpc.primary_user_agent", VString "myapp/1.0")]) ∅
     = Some ((true, Some p), h) ∧
     read_channel_args (Some p) h = Some (out, h) ∧
     (c_string "grpc.primary_user_agent", string_arg (c_string "myapp/1.0")) ∉ out) ∧
  (is_integer (VNumber (Integral 2147483648)) = true ∧
   ∃ p h,
     ParseChannelArgs "1.0.0"
       (VObject [("grpc.max_receive_message_length",
                  VNumber (Integral 2147483648))]) ∅
     = Some ((false, p), h)).
Proof.
  split.
  - eexists _, _, _. split; [vm_compute; reflexivity|].
    split; [vm_compute; reflexivity|].
    by apply (bool_decide_unpack _).
  - split; [reflexivity|]. eexists _, _. vm_compute. reflexivity.
Qed.

(** The options [{a: 5, "grpc.primary_user_agent": "myapp/1.0", b: "xy"}]. *)
Lemma ParseChannelArgs_encodes_every_entry_witness :
  ∃ p h' out,
    ParseChannelArgs "1.0.0"
      (VObject [("a", VNumber (Integral 5));
                ("grpc.primary_user_agent", VString "myapp/1.0");
                ("b", VString "xy")]) ∅
    = Some ((true, Some p), h') ∧
    read_channel_args (Some p) h' = Some (out, h') ∧
    NoDup out.*1 ∧ length out = 3%nat.
Proof.
  destruct (ParseChannelArgs_encodes_every_entry "1.0.0"
              [("a", VNumber (Integral 5));
               ("grpc.primary_user_agent", VString "myapp/1.0");
               ("b", VString "xy")] ∅)
    as (p & h' & out & Hrun & Hread & Hnd & Hlen & _).
  - by apply (bool_decide_unpack _).
  - repeat (apply Forall_cons_2; [first [by left|by right]|]). apply Forall_nil_2.
  - exists p, h', out. auto.
Defined.

(** The options [{"grpc.primary_user_agent": "myapp/1.0"}], the
    scenario of the spec. *)
Lemma ParseChannelArgs_user_agent_witness :
  ∃ p h' out,
    ParseChannelArgs "1.0.0"
      (VObject [("grpc.primary_user_agent", VString "myapp/1.0")]) ∅
    = Some ((true, Some p), h') ∧
    read_channel_args (Some p) h' = Some (out, h') ∧
    (c_string "grpc.primary_user_agent",
     string_arg (c_string "myapp/1.0 grpc-node/1.0.0")) ∈ out ∧
    length out = 1%nat.
Proof.
  destruct (ParseChannelArgs_user_agent "1.0.0"
              (VObject [("grpc.primary_user_agent", VString "myapp/1.0")]) ∅)
    as [Hsuccess Hlist].
  - by apply (bool_decide_unpack _).
  - destruct (proj1 Hsuccess) as (p & h' & Hrun); [split; reflexivity|].
    destruct (Hlist p h' Hrun) as (out & Hread & _ & Hgiven & _).
    exists p, h', out. split; [exact Hrun|]. split; [exact Hread|].
    apply (Hgiven "myapp/1.0"). repeat constructor.
Defined.

(** An open channel, closed and then asked for its target twice. *)
Lemma closed_channel_operations_fail_witness :
  GetTarget (λ _, "localhost:0")
    {| This := VChannel 1%positive; IsConstructCall := false; arguments := [] |}
    {| heap := ∅;
       channels := {[1%positive := {| wrapped_channel := NULL |}]};
       log := [grpc_channel_destroy 7%positive] |}
  = Some (ThrowError "Cannot call getTarget on a closed Channel",
          {| heap := ∅;
             channels := {[1%positive := {| wrapped_channel := NULL |}]};
             log := [grpc_channel_destroy 7%positive] |}).
Proof.
  refine (proj1 (closed_channel_operations_fail "1.0.0"
                   (λ _, Some 7%positive) (λ _, "localhost:0") (λ _, 2)
                   (λ _, Some 9%positive) VCall 65535
                   {| This := VChannel 1%positive; IsConstructCall := false; arguments := [] |}
                   1%positive
                   [(Channel_GetTarget,
                     {| This := VChannel 1%positive; IsConstructCall := false;
                        arguments := [] |})]
                   {| heap := ∅;
                      channels := {[1%positive := {| wrapped_channel := Some 7%positive |}]};
                      log := [] |}
                   _ _ _ _ _)).
  - reflexivity.
  - vm_compute. reflexivity.
  - reflexivity.
Defined.

(** Three calls of [close] on an open channel, then the destructor. *)
Lemma Close_idempotent_witness :
  ∃ w',
    (Close_times 3 {| This := VChannel 1%positive; IsConstructCall := false; arguments := [] |};;
     Channel_destructor 1%positive)
      {| heap := ∅;
         channels := {[1%positive := {| wrapped_channel := Some 7%positive |}]};
         log := [] |}
    = Some (tt, w') ∧
    log w' = [grpc_channel_destroy 7%positive].
Proof.
  destruct (Close_idempotent
              {| This := VChannel 1%positive; IsConstructCall := false; arguments := [] |}
              1%positive {| wrapped_channel := Some 7%positive |}
              {| heap := ∅;
                 channels := {[1%positive := {| wrapped_channel := Some 7%positive |}]};
                 log := [] |} 3)
    as [_ (w' & Hrun & Hlog & _)].
  - reflexivity.
  - vm_compute. reflexivity.
  - exists w'. split; [exact Hrun|exact Hlog].
Defined.

(** [getConnectivityState(1)]: a truthy number is not [true]. *)
Lemma GetConnectivityState_try_to_connect_witness :
  GetConnectivityState (λ _, 2)
    {| This := VChannel 1%positive; IsConstructCall := false;
       arguments := [VNumber (Integral 1)] |}
    {| heap := ∅;
       channels := {[1%positive := {| wrapped_channel := Some 7%positive |}]};
       log := [] |}
  = Some (Return (VNumber (Integral 2)),
          {| heap := ∅;
             channels := {[1%positive := {| wrapped_channel := Some 7%positive |}]};
             log := [grpc_channel_check_connectivity_state 7%positive 0] |}).
Proof.
  destruct (GetConnectivityState_try_to_connect (λ _, 2)
              {| This := VChannel 1%positive; IsConstructCall := false;
                 arguments := [VNumber (Integral 1)] |}
              1%positive 7%positive
              {| heap := ∅;
                 channels := {[1%positive := {| wrapped_channel := Some 7%positive |}]};
                 log := [] |})
    as (try_to_connect & Hrun & _ & Hzero).
  - reflexivity.
  - vm_compute. reflexivity.
  - rewrite (proj2 Hzero) in Hrun by discriminate. exact Hrun.
Defined.

(** C8, the claim as it stands.  99 is an unsigned 32-bit integer and
    not the code of a connectivity state; with it as the last observed
    state, on an open channel, the watch is registered. *)
Lemma WatchConnectivityState_unrecognized_state_counterexample :
  ¬ recognized_state (VNumber (Integral 99)) ∧
  WatchConnectivityState
    {| This := VChannel 1%positive; IsConstructCall := false;
       arguments := [VNumber (Integral 99); VNumber (Integral 1000); VFunction 1%positive] |}
    {| heap := ∅;
       channels := {[1%positive := {| wrapped_channel := Some 7%positive |}]};
       log := [] |}
  = Some (Return VUndefined,
          {| heap := ∅;
             channels := {[1%positive := {| wrapped_channel := Some 7%positive |}]};
             log := [grpc_channel_watch_connectivity_state 7%positive 99 (Integral 1000) 1%positive;
                     CompletionQueueNext] |}).
Proof.
  split.
  - intros [s Hs]. destruct s; discriminate.
  - vm_compute. reflexivity.
Qed.

(** A watch whose third argument is a string. *)
Lemma WatchConnectivityState_type_checks_witness :
  ∃ msg,
    WatchConnectivityState
      {| This := VChannel 1%positive; IsConstructCall := false;
         arguments := [VNumber (Integral 0); VNumber (Integral 1000);
                       VString "not a function"] |}
      {| heap := ∅;
         channels := {[1%positive := {| wrapped_channel := Some 7%positive |}]};
         log := [] |}
    = Some (ThrowTypeError msg,
            {| heap := ∅;
               channels := {[1%positive := {| wrapped_channel := Some 7%positive |}]};
               log := [] |}).
Proof.
  apply (proj1 (WatchConnectivityState_type_checks _ _)). right. right. reflexivity.
Defined.

(** C9, the claim as it stands.  With null as the credentials, and
    with a plain object as the credentials, the construction ends with
    a type error and no channel is created. *)
Lemma New_null_credentials_counterexample :
  New "1.0.0" (λ _, Some 7%positive)
    {| This := VUndefined; IsConstructCall := true;
       arguments := [VString "localhost:0"; VNull; VObject []] |}
    {| heap := ∅; channels := ∅; log := [] |}
  = Some (ThrowTypeError "Channel's second argument must be a ChannelCredentials",
          {| heap := ∅; channels := ∅; log := [] |}) ∧
  New "1.0.0" (λ _, Some 7%positive)
    {| This := VUndefined; IsConstructCall := true;
       arguments := [VString "localhost:0"; VObject []; VObject []] |}
    {| heap := ∅; channels := ∅; log := [] |}
  = Some (ThrowTypeError "Channel's second argument must be a ChannelCredentials",
          {| heap := ∅; channels := ∅; log := [] |}).
Proof. split; vm_compute; reflexivity. Qed.

(** Construction with credentials that wrap the pointer 5. *)
Lemma New_credentials_witness :
  ∃ obj w' channel_args,
    New "1.0.0" (λ _, Some 7%positive)
      {| This := VUndefined; IsConstructCall := true;
         arguments := [VString "localhost:0"; VChannelCredentials (Some 5%positive);
                       VObject []] |}
      {| heap := ∅; channels := ∅; log := [] |}
    = Some (Return (VChannel obj), w') ∧
    log w' = [grpc_secure_channel_create 5%positive (c_string "localhost:0") channel_args] ∧
    channels w' !! obj = Some {| wrapped_channel := Some 7%positive |}.
Proof.
  destruct (New_credentials "1.0.0" (λ _, Some 7%positive)
              {| This := VUndefined; IsConstructCall := true;
                 arguments := [VString "localhost:0";
                               VChannelCredentials (Some 5%positive); VObject []] |}
              {| heap := ∅; channels := ∅; log := [] |})
    as [_ Hcreates].
  destruct (Hcreates "localhost:0" (Some 5%positive) eq_refl eq_refl)
    as (obj & w' & channel_args & Hrun & _ & Hlog & Hchannels & _).
  - constructor.
  - split; reflexivity.
  - exists obj, w', channel_args. split; [exact Hrun|]. split; [exact Hlog|].
    rewrite Hchannels. apply lookup_insert_eq.
Defined.

(** C6, the claim as it stands.  The gRPC core returns a null handle,
    and the construction returns a Channel object. *)
Lemma New_null_handle_counterexample :
  New "1.0.0" (λ _, NULL)
    {| This := VUndefined; IsConstructCall := true;
       arguments := [VString "localhost:0"; VChannelCredentials NULL; VObject []] |}
    {| heap := ∅; channels := ∅; log := [] |}
  = Some (Return (VChannel 1),
          {| heap := ∅;
             channels := {[1%positive := {| wrapped_channel := NULL |}]};
             log := [grpc_insecure_channel_create (c_string "localhost:0")
                       [(c_string "grpc.primary_user_agent",
                         string_arg (c_string "grpc-node/1.0.0"))]] |}).
Proof. vm_compute. reflexivity. Qed.

(** The same construction: the object it returns is closed. *)
Lemma New_null_handle_witness :
  ∃ obj w',
    New "1.0.0" (λ _, NULL)
      {| This := VUndefined; IsConstructCall := true;
         arguments := [VString "localhost:0"; VChannelCredentials NULL; VObject []] |}
      {| heap := ∅; channels := ∅; log := [] |}
    = Some (Return (VChannel obj), w') ∧
    channels w' !! obj = Some {| wrapped_channel := NULL |} ∧
    heap w' = ∅.
Proof.
  destruct (New_null_handle "1.0.0" (λ _, NULL) (λ _, "localhost:0") (λ _, 2)
              {| This := VUndefined; IsConstructCall := true;
                 arguments := [VString "localhost:0"; VChannelCredentials NULL;
                               VObject []] |}
              "localhost:0" NULL {| heap := ∅; channels := ∅; log := [] |})
    as (obj & w' & Hrun & _ & Hclosed & Hheap & _).
  - reflexivity.
  - reflexivity.
  - constructor.
  - split; reflexivity.
  - reflexivity.
  - exists obj, w'. split; [exact Hrun|]. split; [|exact Hheap].
    rewrite Hclosed. apply lookup_insert_eq.
Defined.

(** [createCall("/svc/m", 1000, 42)] on an open channel. *)
Lemma CreateCall_bad_host_keeps_method_slice_witness :
  ∃ method,
    CreateCall (λ _, Some 9%positive) VCall 65535
      {| This := VChannel 1%positive; IsConstructCall := false;
         arguments := [VString "/svc/m"; VNumber (Integral 1000);
                       VNumber (Integral 42)] |}
      {| heap := ∅;
         channels := {[1%positive := {| wrapped_channel := Some 7%positive |}]};
         log := [] |}
    = Some (ThrowTypeError "createCall's third argument must be a string",
            {| heap := {[method := slice (list_ascii_of_string "/svc/m")]};
               channels := {[1%positive := {| wrapped_channel := Some 7%positive |}]};
               log := [] |}).
Proof.
  destruct (CreateCall_bad_host_keeps_method_slice (λ _, Some 9%positive) VCall 65535
              {| This := VChannel 1%positive; IsConstructCall := false;
                 arguments := [VString "/svc/m"; VNumber (Integral 1000);
                               VNumber (Integral 42)] |}
              1%positive 7%positive
              {| heap := ∅;
                 channels := {[1%positive := {| wrapped_channel := Some 7%positive |}]};
                 log := [] |})
    as (method_str & method & Harg & _ & Hrun).
  - reflexivity.
  - vm_compute. reflexivity.
  - repeat split.
  - reflexivity.
  - reflexivity.
  - injection Harg as <-. exists method. exact Hrun.
Defined.

(** ** The rest of the code on concrete inputs *)

(** The options [{a: 5, b: true}]: what the failed pass leaves is given
    back in full. *)
Lemma ParseChannelArgs_then_DeallocateChannelArgs_witness :
  ∃ ok ptr h',
    ParseChannelArgs "1.0.0"
      (VObject [("a", VNumber (Integral 5)); ("b", VBoolean true)]) ∅
    = Some ((ok, ptr), h') ∧
    DeallocateChannelArgs ptr h' = Some (tt, ∅).
Proof.
  destruct (ParseChannelArgs_then_DeallocateChannelArgs "1.0.0"
              (VObject [("a", VNumber (Integral 5)); ("b", VBoolean true)]) ∅)
    as (ok & ptr & h' & Hrun & Hfree & _).
  - by apply (bool_decide_unpack _).
  - exists ok, ptr, h'. split; [exact Hrun|exact Hfree].
Defined.

(** No options at all. *)
Lemma ParseChannelArgs_no_options_witness :
  ∃ p h',
    ParseChannelArgs "1.0.0" VUndefined ∅ = Some ((true, Some p), h') ∧
    read_channel_args (Some p) h'
    = Some ([(c_string GRPC_ARG_PRIMARY_USER_AGENT_STRING,
              string_arg (c_string (grpc_node_user_agent "1.0.0")))], h').
Proof.
  apply (ParseChannelArgs_no_options "1.0.0" VUndefined ∅); reflexivity.
Defined.

(** The options [{b: "xy", a: 5}]. *)
Lemma ParseChannelArgs_keeps_order_witness :
  ∃ p h' out,
    ParseChannelArgs "1.0.0"
      (VObject [("b", VString "xy"); ("a", VNumber (Integral 5))]) ∅
    = Some ((true, Some p), h') ∧
    read_channel_args (Some p) h' = Some (out, h') ∧
    out.*1 = [c_string "b"; c_string "a"; c_string GRPC_ARG_PRIMARY_USER_AGENT_STRING].
Proof.
  apply (ParseChannelArgs_keeps_order "1.0.0"
           (VObject [("b", VString "xy"); ("a", VNumber (Integral 5))]) ∅).
  - by apply (bool_decide_unpack _).
  - split; reflexivity.
Defined.

(** The options [{"grpc.primary_user_agent": 3, a: "q"}]. *)
Lemma ParseChannelArgs_integer_user_agent_witness :
  ∃ p h' out,
    ParseChannelArgs "1.0.0"
      (VObject [(GRPC_ARG_PRIMARY_USER_AGENT_STRING, VNumber (Integral 3));
                ("a", VString "q")]) ∅
    = Some ((true, Some p), h') ∧
    read_channel_args (Some p) h' = Some (out, h') ∧
    length out = 2%nat ∧
    (c_string GRPC_ARG_PRIMARY_USER_AGENT_STRING, integer_arg 3) ∈ out.
Proof.
  destruct (ParseChannelArgs_integer_user_agent "1.0.0"
              (VObject [(GRPC_ARG_PRIMARY_USER_AGENT_STRING, VNumber (Integral 3));
                        ("a", VString "q")])
              (VNumber (Integral 3)) ∅)
    as (p & h' & out & Hrun & Hread & _ & Hlen & Hin).
  - by apply (bool_decide_unpack _).
  - split; reflexivity.
  - repeat constructor.
  - reflexivity.
  - exists p, h', out. auto.
Defined.

(** The key [grpc.primary_user_agent], a NUL character and [x]. *)
Lemma ParseChannelArgs_key_after_NUL_witness :
  ∃ p h' out,
    ParseChannelArgs "1.0.0"
      (VObject [(GRPC_ARG_PRIMARY_USER_AGENT_STRING +:+ String zero "x",
                 VString "me")]) ∅
    = Some ((true, Some p), h') ∧
    read_channel_args (Some p) h' = Some (out, h') ∧
    (c_string (GRPC_ARG_PRIMARY_USER_AGENT_STRING +:+ String zero "x"),
     string_arg (c_string ("me" +:+ " " +:+ grpc_node_user_agent "1.0.0"))) ∈ out ∧
    (c_string GRPC_ARG_PRIMARY_USER_AGENT_STRING,
     string_arg (c_string (grpc_node_user_agent "1.0.0"))) ∈ out.
Proof.
  destruct (ParseChannelArgs_key_after_NUL "1.0.0"
              (VObject [(GRPC_ARG_PRIMARY_USER_AGENT_STRING +:+ String zero "x",
                         VString "me")])
              (GRPC_ARG_PRIMARY_USER_AGENT_STRING +:+ String zero "x") "me" ∅)
    as (p & h' & out & Hrun & Hread & Hgiven & Hadded & _).
  - by apply (bool_decide_unpack _).
  - split; reflexivity.
  - repeat constructor.
  - reflexivity.
  - by apply (bool_decide_unpack _).
  - exists p, h', out. auto.
Defined.

(** The options [{a: "xy"}]. *)
Lemma ParseChannelArgs_round_trip_witness :
  ∃ p h' out kcs cs,
    ParseChannelArgs "1.0.0" (VObject [("a", VString "xy")]) ∅
    = Some ((true, Some p), h') ∧
    read_channel_args (Some p) h' = Some (out, h') ∧
    (kcs, string_arg cs) ∈ out ∧
    string_of_list_ascii (c_str kcs) = "a" ∧
    string_of_list_ascii (c_str cs) = "xy".
Proof.
  destruct (ParseChannelArgs_round_trip "1.0.0" (VObject [("a", VString "xy")])
              "a" (VString "xy") ∅)
    as (p & h' & out & kcs & c & Hrun & Hread & Hin & Hkey & Hstring & _).
  - by apply (bool_decide_unpack _).
  - split; reflexivity.
  - repeat constructor.
  - by apply (bool_decide_unpack _).
  - by apply (bool_decide_unpack _).
  - destruct (Hstring "xy" eq_refl) as (cs & -> & Hcs).
    + by apply (bool_decide_unpack _).
    + exists p, h', out, kcs, cs. auto.
Defined.

(** The options [{a: 5, b: true, d: "q"}]: the pass stops at [b]. *)
Lemma ParseChannelArgs_stops_at_first_rejected_witness :
  ∃ p a n pop h',
    ParseChannelArgs "1.0.0"
      (VObject ([("a", VNumber (Integral 5))] ++
                ("b", VBoolean true) :: [("d", VString "q")])) ∅
    = Some ((false, Some p), h') ∧
    parsed ∅ h' p a n pop (encoded "1.0.0" <$> [("a", VNumber (Integral 5))]) ∧
    length pop = 1%nat ∧ (1 < n)%nat.
Proof.
  apply (ParseChannelArgs_stops_at_first_rejected "1.0.0"
           [("a", VNumber (Integral 5))] "b" (VBoolean true) [("d", VString "q")] ∅).
  - by apply (bool_decide_unpack _).
  - repeat constructor.
  - reflexivity.
Defined.


(** [new Channel(1, null)]. *)
Lemma New_needs_a_string_target_witness :
  New "1.0.0" (λ _, Some 7%positive)
    {| This := VUndefined; IsConstructCall := true;
       arguments := [VNumber (Integral 1); VNull] |}
    {| heap := ∅; channels := ∅; log := [] |}
  = Some (ThrowTypeError "Channel expects a string, a credential and an object",
          {| heap := ∅; channels := ∅; log := [] |}).
Proof.
  apply (New_needs_a_string_target "1.0.0" (λ _, Some 7%positive)
           {| This := VUndefined; IsConstructCall := true;
              arguments := [VNumber (Integral 1); VNull] |}).
  reflexivity.
Defined.

(** [new Channel("localhost:0", creds, {a: 5, b: true})]. *)
Lemma New_bad_options_no_leak_witness :
  New "1.0.0" (λ _, Some 7%positive)
    {| This := VUndefined; IsConstructCall := true;
       arguments := [VString "localhost:0"; VChannelCredentials NULL;
                     VObject [("a", VNumber (Integral 5)); ("b", VBoolean true)]] |}
    {| heap := ∅; channels := ∅; log := [] |}
  = Some (ThrowTypeError
            "Channel options must be an object with string keys and integer or string values",
          {| heap := ∅; channels := ∅; log := [] |}).
Proof.
  apply (New_bad_options_no_leak "1.0.0" (λ _, Some 7%positive)
           {| This := VUndefined; IsConstructCall := true;
              arguments := [VString "localhost:0"; VChannelCredentials NULL;
                            VObject [("a", VNumber (Integral 5)); ("b", VBoolean true)]] |}
           "localhost:0" NULL).
  - reflexivity.
  - reflexivity.
  - by apply (bool_decide_unpack _).
  - intros [_ Hall]. discriminate Hall.
Defined.

(** [getTarget] on an open channel. *)
Lemma only_Close_destroys_witness :
  ∃ out w',
    call_method "1.0.0" (λ _, Some 7%positive) (λ _, "localhost:0") (λ _, 2)
      (λ _, Some 9%positive) VCall 65535 Channel_GetTarget
      {| This := VChannel 1%positive; IsConstructCall := false; arguments := [] |}
      {| heap := ∅;
         channels := {[1%positive := {| wrapped_channel := Some 7%positive |}]};
         log := [] |}
    = Some (out, w') ∧
    ∃ new, log w' = [] ++ new ∧ Forall (λ e, is_destroy e = false) new.
Proof.
  eexists _, _. split; [vm_compute; reflexivity|].
  refine (proj2 (only_Close_destroys "1.0.0" (λ _, Some 7%positive) (λ _, "localhost:0")
                   (λ _, 2) (λ _, Some 9%positive) VCall 65535 Channel_GetTarget
                   {| This := VChannel 1%positive; IsConstructCall := false;
                      arguments := [] |}
                   {| heap := ∅;
                      channels := {[1%positive := {| wrapped_channel := Some 7%positive |}]};
                      log := [] |}
                   _ _ _ _)).
  - discriminate.
  - vm_compute. reflexivity.
Defined.

(** An open channel: [getTarget], [close], a construction, [getTarget]
    and [close] again. *)
Lemma channel_lifecycle_witness :
  ∃ w' new,
    call_methods "1.0.0" (λ _, Some 8%positive) (λ _, "localhost:0") (λ _, 2)
      (λ _, Some 9%positive) VCall 65535
      [(Channel_GetTarget,
        {| This := VChannel 1%positive; IsConstructCall := false; arguments := [] |});
       (Channel_Close,
        {| This := VChannel 1%positive; IsConstructCall := false; arguments := [] |});
       (Channel_New,
        {| This := VUndefined; IsConstructCall := true;
           arguments := [VString "localhost:0"; VChannelCredentials NULL] |});
       (Channel_GetTarget,
        {| This := VChannel 1%positive; IsConstructCall := false; arguments := [] |});
       (Channel_Close,
        {| This := VChannel 1%positive; IsConstructCall := false; arguments := [] |})]
      {| heap := ∅;
         channels := {[1%positive := {| wrapped_channel := Some 7%positive |}]};
         log := [] |}
    = Some (tt, w') ∧
    log w' = [] ++ new ∧
    ((channels w' !! 1%positive = Some {| wrapped_channel := Some 7%positive |} ∧
      Forall (λ e, is_destroy e = false) new) ∨
     (channels w' !! 1%positive = Some {| wrapped_channel := NULL |} ∧
      ∃ before after,
        new = before ++ grpc_channel_destroy 7%positive :: after ∧
        Forall (λ e, is_destroy e = false) before ∧
        Forall (λ e, uses_channel e = false) after)).
Proof.
  eexists _.
  match goal with
  | |- ∃ new, call_methods ?ver ?cc ?ct ?cs ?ccr ?wrap ?flags ?calls ?w
              = Some (tt, ?w') ∧ _ =>
      assert (call_methods ver cc ct cs ccr wrap flags calls w = Some (tt, w'))
        as Hrun by (vm_compute; reflexivity);
      destruct (channel_lifecycle ver cc ct cs ccr wrap flags calls
                  1%positive 7%positive w w')
        as (new & Hlog & Hcases);
        [ vm_compute; reflexivity
        | repeat (constructor; [first [by left|by right]|]); constructor
        | exact Hrun
        | ]
  end.
  exists new. split; [exact Hrun|]. split; [exact Hlog|exact Hcases].
Defined.

(** [createCall(1)] on a closed channel: the type error of the method,
    not the error of the closed channel. *)
Lemma CreateCall_type_errors_come_first_witness :
  ∃ msg,
    CreateCall (λ _, Some 9%positive) VCall 65535
      {| This := VChannel 1%positive; IsConstructCall := false;
         arguments := [VNumber (Integral 1)] |}
      {| heap := ∅;
         channels := {[1%positive := {| wrapped_channel := NULL |}]};
         log := [] |}
    = Some (ThrowTypeError msg,
            {| heap := ∅;
               channels := {[1%positive := {| wrapped_channel := NULL |}]};
               log := [] |}).
Proof.
  apply (CreateCall_type_errors_come_first (λ _, Some 9%positive) VCall 65535
           {| This := VChannel 1%positive; IsConstructCall := false;
              arguments := [VNumber (Integral 1)] |}).
  intros [Hmethod _]. discriminate Hmethod.
Defined.

(** [createCall("/svc/m", 1000)] on an open channel, for which the core
    returns no call. *)
Lemma CreateCall_default_host_witness :
  CreateCall (λ _, NULL) VCall 65535
    {| This := VChannel 1%positive; IsConstructCall := false;
       arguments := [VString "/svc/m"; VNumber (Integral 1000)] |}
    {| heap := ∅;
       channels := {[1%positive := {| wrapped_channel := Some 7%positive |}]};
       log := [] |}
  = Some (Return (VCall NULL),
          {| heap := ∅;
             channels := {[1%positive := {| wrapped_channel := Some 7%positive |}]};
             log := [grpc_channel_create_call 7%positive NULL 65535
                       (list_ascii_of_string "/svc/m") NULL
                       (To_double (VNumber (Integral 1000)))] |}).
Proof.
  destruct (CreateCall_default_host (λ _, NULL) VCall 65535
              {| This := VChannel 1%positive; IsConstructCall := false;
                 arguments := [VString "/svc/m"; VNumber (Integral 1000)] |}
              1%positive 7%positive
              {| heap := ∅;
                 channels := {[1%positive := {| wrapped_channel := Some 7%positive |}]};
                 log := [] |})
    as (method_str & parent_call & propagate_flags
        & Hmethod & _ & Hparent & _ & Hflags & Hrun).
  - reflexivity.
  - vm_compute. reflexivity.
  - repeat split.
  - reflexivity.
  - rewrite (Hparent eq_refl), (Hflags eq_refl) in Hrun.
    injection Hmethod as <-. exact Hrun.
Defined.

(** [createCall("/svc/m", 1000, "example.org")] on an open channel. *)
Lemma CreateCall_host_slice_remains_witness :
  ∃ host_slice out w',
    CreateCall (λ _, Some 9%positive) VCall 65535
      {| This := VChannel 1%positive; IsConstructCall := false;
         arguments := [VString "/svc/m"; VNumber (Integral 1000);
                       VString "example.org"] |}
      {| heap := ∅;
         channels := {[1%positive := {| wrapped_channel := Some 7%positive |}]};
         log := [] |}
    = Some (Return out, w') ∧
    heap w' = <[host_slice := slice (list_ascii_of_string "example.org")]> ∅.
Proof.
  destruct (CreateCall_host_slice_remains (λ _, Some 9%positive) VCall 65535
              {| This := VChannel 1%positive; IsConstructCall := false;
                 arguments := [VString "/svc/m"; VNumber (Integral 1000);
                               VString "example.org"] |}
              1%positive 7%positive "example.org"
              {| heap := ∅;
                 channels := {[1%positive := {| wrapped_channel := Some 7%positive |}]};
                 log := [] |})
    as (method_str & host_slice & out & w' & _ & Hrun & _ & Hheap & _).
  - reflexivity.
  - vm_compute. reflexivity.
  - repeat split.
  - reflexivity.
  - exists host_slice, out, w'. split; [exact Hrun|exact Hheap].
Defined.

(** [Channel("localhost:0", creds, undefined, 4)] called as a function
    on some receiver, and [new Channel("localhost:0", creds)]. *)
Lemma New_reads_three_arguments_witness :
  New "1.0.0" (λ _, Some 7%positive)
    {| This := VChannel 3%positive; IsConstructCall := false;
       arguments := [VString "localhost:0"; VChannelCredentials NULL; VUndefined;
                     VNumber (Integral 4)] |}
    {| heap := ∅; channels := ∅; log := [] |}
  = New "1.0.0" (λ _, Some 7%positive)
      {| This := VUndefined; IsConstructCall := true;
         arguments := [VString "localhost:0"; VChannelCredentials NULL] |}
      {| heap := ∅; channels := ∅; log := [] |}.
Proof.
  apply (New_reads_three_arguments "1.0.0" (λ _, Some 7%positive)
           {| This := VChannel 3%positive; IsConstructCall := false;
              arguments := [VString "localhost:0"; VChannelCredentials NULL; VUndefined;
                            VNumber (Integral 4)] |}
           {| This := VUndefined; IsConstructCall := true;
              arguments := [VString "localhost:0"; VChannelCredentials NULL] |});
    reflexivity.
Defined.
